(** * DETERMINATION: the rate limiter and the command guards

    A shallow embedding of [DETERMINATION.py]: the [RateLimiter] class
    (two sliding windows of request timestamps), the guard every command
    handler puts in front of the text-generation call, the input
    validation of the [diceroll] command and the error mapping of
    [ask_gemini].

    Modelling choices.
    - [time.time()] returns seconds as a float, a binary64 number.  A
      clock reading is a rational number of seconds ([Q]); the floats are
      the rationals that [binary64] leaves as they are.  The subtraction
      [current_time - t] is the float subtraction: the exact difference
      rounded to the nearest binary64 number, ties to the even
      significand ([float_sub]).  The exponent is not bounded: overflow
      and subnormal numbers are far from clock readings and from the
      windows of 60 and 86400 seconds.  The statements hold for all
      rational readings, the floats among them.  Every function that
      reads the clock takes the reading as an argument.
    - A [collections.deque] is a [list], oldest entry first.  [dq[0]] and
      [dq.popleft()] raise [IndexError] on an empty deque; they are
      modelled as fallible operations.
    - A Python [str] that a user types is a sequence of Unicode code
      points ([list N]).  The Unicode tables behind [\d], [int] and
      [str.lower] belong to the Python runtime; they are parameters, and
      the statements say what they assume of them.
    - [int] of a [str] raises [ValueError] when the string has more
      digits than the limit of the runtime on integer string
      conversions, [sys.get_int_max_str_digits()]: 0 for no limit, else
      at least 640, and 4300 unless the runtime is told otherwise.  The
      limit is a parameter.  The handler does not catch the error: it
      leaves the handler, and nothing is sent to the user.
    - The fixed replies of the bot are kept as the UTF-8 text of the
      source, in [string]. *)

From Stdlib Require Import List ZArith NArith QArith Qround Qpower Lqa Lia.
From Stdlib Require Import Bool String Ascii DecimalString Sorted.
Import ListNotations.

Local Open Scope Q_scope.

(** ** Results of fallible code *)

Inductive exn : Type :=
| IndexError (text : string)
| ValueError (text : string)
| Exception (text : string).

(** [str(e)] *)
Definition exn_str (e : exn) : string :=
  match e with
  | IndexError text => text
  | ValueError text => text
  | Exception text => text
  end.

Inductive res (A : Type) : Type :=
| Ok (a : A)
| Raise (e : exn)
| OutOfFuel.

Arguments Ok {A} a.
Arguments Raise {A} e.
Arguments OutOfFuel {A}.

Definition bind {A B : Type} (m : res A) (k : A -> res B) : res B :=
  match m with
  | Ok a => k a
  | Raise e => Raise e
  | OutOfFuel => OutOfFuel
  end.

Notation "x <- m ;; k" := (bind m (fun x => k))
  (at level 61, m at next level, right associativity).

(** [try: m  except Exception as e: handler(e)] *)
Definition try_except {A : Type} (m : res A) (handler : exn -> res A) : res A :=
  match m with
  | Raise e => handler e
  | _ => m
  end.

(** ** Deques of timestamps *)

Definition deque : Type := list Q.

(** Truth value of a deque: [bool(dq)] is [len(dq) != 0]. *)
Definition deque_bool (dq : deque) : bool :=
  match dq with
  | [] => false
  | _ :: _ => true
  end.

(** [dq[0]] *)
Definition deque_front (dq : deque) : res Q :=
  match dq with
  | [] => Raise (IndexError "deque index out of range")
  | x :: _ => Ok x
  end.

(** [dq.popleft()]: the deque that remains. *)
Definition popleft (dq : deque) : res deque :=
  match dq with
  | [] => Raise (IndexError "pop from an empty deque")
  | _ :: tl => Ok tl
  end.

(** [dq.append(x)] *)
Definition append (dq : deque) (x : Q) : deque := dq ++ [x].

(** ** Floats *)

(** The integer nearest to [s]; halfway between two integers, the even
    one. *)
Definition nearest_even (s : Q) : Z :=
  let f := Qfloor s in
  match Qcompare (s - inject_Z f) (1 # 2) with
  | Lt => f
  | Gt => (f + 1)%Z
  | Eq => if Z.even f then f else (f + 1)%Z
  end.

(** For [q > 0]: the exponent [e] with [2^(e+52) <= q < 2^(e+53)], so
    that the binary64 numbers around [q] are the multiples of [2^e] (a
    significand of 53 bits). *)
Definition ulp_exponent (q : Q) : Z :=
  let k := (Z.log2 (Qnum q) - Z.log2 (Zpos (Qden q)))%Z in
  if Qle_bool (2 ^ k) q then (k - 52)%Z else (k - 53)%Z.

(** The binary64 number nearest to [q > 0]. *)
Definition round_pos (q : Q) : Q :=
  inject_Z (nearest_even (q / 2 ^ ulp_exponent q)) * 2 ^ ulp_exponent q.

(** The binary64 number nearest to [q], ties to even: what a float
    operation returns for the exact result [q]. *)
Definition binary64 (q : Q) : Q :=
  match Qcompare q 0 with
  | Eq => 0
  | Gt => round_pos q
  | Lt => - round_pos (- q)
  end.

(** [a - b] on floats. *)
Definition float_sub (a b : Q) : Q := binary64 (a - b).

(** Half the distance from the float [q] to the next float above it. *)
Definition half_ulp (q : Q) : Q := 2 ^ (ulp_exponent q - 1).

(** The floats nearest to 0.1 and to 60.1: the Python literals [0.1]
    and [60.1]. *)
Definition FLOAT_0_1 : Q := binary64 (1 # 10).
Definition FLOAT_60_1 : Q := binary64 (601 # 10).

(** [current_time - t > window] *)
Definition older (current_time window t : Q) : bool :=
  match Qcompare (float_sub current_time t) window with
  | Gt => true
  | _ => false
  end.

(** ** RateLimiter *)

Module RateLimiter.

Record t : Type := mk {
  rpm_limit : Z;
  daily_limit : Z;
  requests_minute : deque;
  requests_day : deque
}.

(** [__init__] *)
Definition init (rpm daily : Z) : t := mk rpm daily [] [].

Definition MSG_MINUTE : string :=
  "Bot đang bận suy nghĩ! Vui lòng thử lại sau một phút.".

Definition MSG_DAY : string :=
  "Hôm nay bot đã dùng hết năng lượng rồi. Hẹn gặp lại bạn vào ngày mai nhé!".

(** The loop [while dq and current_time - dq[0] > window: dq.popleft()],
    run with a bound on the number of iterations.  The test is Python's
    short-circuit [and]: the front is read only when the deque is
    non-empty. *)
Fixpoint clean_loop (fuel : nat) (current_time window : Q) (dq : deque)
  : res deque :=
  match fuel with
  | O => OutOfFuel
  | S fuel' =>
      go <- (if deque_bool dq
             then (x <- deque_front dq ;; Ok (older current_time window x))
             else Ok false) ;;
      if go
      then (dq' <- popleft dq ;; clean_loop fuel' current_time window dq')
      else Ok dq
  end.

(** [check], with the iteration bound [fuel] for each loop. *)
Definition check_exec (fuel : nat) (current_time : Q) (self : t)
  : res (t * (bool * string)) :=
  rm <- clean_loop fuel current_time 60 (requests_minute self) ;;
  rd <- clean_loop fuel current_time 86400 (requests_day self) ;;
  let self' := mk (rpm_limit self) (daily_limit self) rm rd in
  if (rpm_limit self <=? Z.of_nat (List.length rm))%Z
  then Ok (self', (true, MSG_MINUTE))
  else if (daily_limit self <=? Z.of_nat (List.length rd))%Z
  then Ok (self', (true, MSG_DAY))
  else Ok (self', (false, ""%string)).

(** The same loop by recursion on the deque: it stops at the first entry
    that is not older than the window, or when the deque is empty. *)
Fixpoint clean (current_time window : Q) (dq : deque) : deque :=
  match dq with
  | [] => []
  | x :: tl =>
      if older current_time window x
      then clean current_time window tl
      else dq
  end.

(** [check]: the limiter after the call and the pair it returns. *)
Definition check (current_time : Q) (self : t) : t * (bool * string) :=
  let rm := clean current_time 60 (requests_minute self) in
  let rd := clean current_time 86400 (requests_day self) in
  let self' := mk (rpm_limit self) (daily_limit self) rm rd in
  if (rpm_limit self <=? Z.of_nat (List.length rm))%Z
  then (self', (true, MSG_MINUTE))
  else if (daily_limit self <=? Z.of_nat (List.length rd))%Z
  then (self', (true, MSG_DAY))
  else (self', (false, ""%string)).

(** [record_request]: one clock reading, appended to both windows. *)
Definition record_request (current_time : Q) (self : t) : t :=
  mk (rpm_limit self) (daily_limit self)
     (append (requests_minute self) current_time)
     (append (requests_day self) current_time).

End RateLimiter.

Import RateLimiter.

(** ** Sequences of limiter calls *)

(** One call on the shared limiter, with the clock reading it makes. *)
Inductive op : Type :=
| OpCheck (current_time : Q)
| OpRecord (current_time : Q).

Definition op_time (o : op) : Q :=
  match o with
  | OpCheck now => now
  | OpRecord now => now
  end.

Definition step (o : op) (self : t) : t :=
  match o with
  | OpCheck now => fst (check now self)
  | OpRecord now => record_request now self
  end.

Definition run (ops : list op) (self : t) : t :=
  fold_left (fun s o => step o s) ops self.

(** The results of [check] called at each of [times] in turn, with no
    [record_request] in between, and the limiter left behind. *)
Fixpoint checks (times : list Q) (self : t) : t * list (bool * string) :=
  match times with
  | [] => (self, [])
  | now :: rest =>
      let (self1, r) := check now self in
      let (self2, rs) := checks rest self1 in
      (self2, r :: rs)
  end.

(** The guard of every command handler:
    [is_limited, msg = limiter.check()], return when limited,
    else [limiter.record_request()].  [t_check] and [t_record] are the two
    clock readings. *)
Definition cycle (t_check t_record : Q) (self : t) : t * (bool * string) :=
  let (self1, r) := check t_check self in
  if fst r then (self1, r) else (record_request t_record self1, r).

(** A series of requests that all pass the guard: the limiter after the
    last one, or [None] when one of them is limited. *)
Fixpoint accept_all (reqs : list (Q * Q)) (self : t) : option t :=
  match reqs with
  | [] => Some self
  | (t_check, t_record) :: rest =>
      let (self1, r) := cycle t_check t_record self in
      if fst r then None else accept_all rest self1
  end.

(** ** The diceroll command *)

(** A Python [str]: its code points. *)
Definition str : Type := list N.

(** The code points of an ASCII literal. *)
Definition str_of_string (s : string) : str :=
  map N_of_ascii (list_ascii_of_string s).

(** What the handler does, as far as the statements below look at it,
    in order: a reply to the user ([ctx.respond(content, ephemeral=True)]),
    the two calls on the limiter, the roll with all that follows it, and
    an exception that leaves the handler. *)
Inductive event : Type :=
| Respond (content : string)
| LimiterCheck
| LimiterRecord
| Roll (num_dice num_sides : Z)
| Raised (e : exn).

Definition MSG_FORMAT : string :=
  "Định dạng không đúng! Hãy dùng `NdN` (ví dụ: `2d6`, `1d20`).".

Definition MSG_RANGE : string :=
  "Số lượng xúc xắc (1-100) hoặc số mặt (2-1000) không hợp lệ.".

(** The tables of ASCII: decimal digits and lower case. *)
Definition ascii_decimal (c : N) : option N :=
  if ((48 <=? c) && (c <=? 57))%N then Some (c - 48)%N else None.

Definition ascii_lower (c : N) : N :=
  if ((65 <=? c) && (c <=? 90))%N then (c + 32)%N else c.

Definition ascii_upper (c : N) : N :=
  if ((97 <=? c) && (c <=? 122))%N then (c - 32)%N else c.

Definition is_ascii (s : str) : Prop := Forall (fun c => (c < 128)%N) s.

(** [str(n)] for a natural number [n]. *)
Definition str_of_N (n : N) : string := NilEmpty.string_of_uint (N.to_uint n).

(** The text of the [ValueError] that [int] raises for a string of
    [digits] digits under the limit [limit]. *)
Definition MSG_DIGITS (limit digits : N) : string :=
  ("Exceeds the limit (" ++ str_of_N limit
   ++ " digits) for integer string conversion: value has " ++ str_of_N digits
   ++ " digits; use sys.set_int_max_str_digits() to increase the limit")%string.

Section Dice.

(** The Unicode tables of the Python runtime, which the repository does
    not contain: the decimal value of a code point of category Nd (the
    code points [\d] matches and [int] reads), and [str.lower]. *)
Variable unicode_decimal : N -> option N.
Variable str_lower : str -> str.

(** The limit of the runtime on the number of digits of an integer
    string conversion, [sys.get_int_max_str_digits()]: 0 for no limit. *)
Variable int_max_str_digits : N.

(** [\d+], greedy: the longest run of digits at the front, and the rest. *)
Fixpoint take_digits (s : str) : str * str :=
  match s with
  | [] => ([], [])
  | c :: tl =>
      match unicode_decimal c with
      | Some _ => let (g, rest) := take_digits tl in (c :: g, rest)
      | None => ([], s)
      end
  end.

(** [re.fullmatch(r'(\d+)d(\d+)', s)]: the two groups of a match. *)
Definition fullmatch_dice (s : str) : option (str * str) :=
  match take_digits s with
  | ((_ :: _) as g1, c :: rest) =>
      if (c =? 100)%N
      then match take_digits rest with
           | ((_ :: _) as g2, []) => Some (g1, g2)
           | _ => None
           end
      else None
  | _ => None
  end.

(** The number a group [g] of decimal digits writes. *)
Definition decimal_value (g : str) : Z :=
  fold_left
    (fun acc c =>
       (10 * acc + Z.of_N (match unicode_decimal c with
                           | Some v => v
                           | None => 0%N
                           end))%Z)
    g 0%Z.

(** [int(g)] for a group [g] of decimal digits: every digit counts for
    the limit, zeros in front included. *)
Definition int (g : str) : res Z :=
  if ((0 <? int_max_str_digits)
      && (int_max_str_digits <? N.of_nat (List.length g)))%N
  then Raise (ValueError
                (MSG_DIGITS int_max_str_digits (N.of_nat (List.length g))))
  else Ok (decimal_value g).

(** The handler up to [ctx.defer()]; the rolls and the narration that
    follow are the event [Roll].  The two calls of [int] are made from
    left to right, and what one raises leaves the handler: the limiter
    is as it was and nothing is sent.  ([int] has no loop to bound, so
    the last case of the match does not arise.) *)
Definition diceroll (dice : str) (t_check t_record : Q) (limiter : t)
  : t * list event :=
  match fullmatch_dice (str_lower dice) with
  | None => (limiter, [Respond MSG_FORMAT])
  | Some (g1, g2) =>
      match (num_dice <- int g1 ;; num_sides <- int g2 ;;
             Ok (num_dice, num_sides)) with
      | Ok (num_dice, num_sides) =>
          if negb (((1 <=? num_dice) && (num_dice <=? 100))
                   && ((2 <=? num_sides) && (num_sides <=? 1000)))%Z
          then (limiter, [Respond MSG_RANGE])
          else
            let (limiter1, r) := check t_check limiter in
            if fst r
            then (limiter1, [LimiterCheck; Respond (snd r)])
            else (record_request t_record limiter1,
                  [LimiterCheck; LimiterRecord; Roll num_dice num_sides])
      | Raise e => (limiter, [Raised e])
      | OutOfFuel => (limiter, [])
      end
  end.

End Dice.

(** ** The text-generation helper *)

Section Gemini.

Variable candidate : Type.

(** What [generate_content] returns: the candidates, and what reading the
    property [response.text] gives. *)
Record response : Type := mk_response {
  candidates : list candidate;
  text : res string
}.

Definition MSG_BLOCKED : string :=
  "Rất tiếc, tôi không thể tạo phản hồi. Có thể nội dung đã bị chặn vì lý do an toàn.".

Definition MSG_ERROR : string :=
  "Xin lỗi, có một lỗi nhỏ đã xảy ra khi tôi đang kết nối với vũ trụ: ".

(** [ask_gemini], given the outcome of the call
    [gemini_model.generate_content(prompt)]. *)
Definition ask_gemini (generated : res response) : res string :=
  try_except
    (response <- generated ;;
     match candidates response with
     | [] => Ok MSG_BLOCKED
     | _ :: _ => text response
     end)
    (fun e => Ok (MSG_ERROR ++ exn_str e)%string).

End Gemini.

Arguments mk_response {candidate} candidates text.
Arguments candidates {candidate} r.
Arguments text {candidate} r.
Arguments ask_gemini {candidate} generated.

(** ** Vocabulary of the statements *)

(** What one run of the loop does to a window: it takes a run of old
    entries off the front and stops at an entry within the window.  Old
    is what the loop's test calls old: the float difference [now - x] is
    above [w]. *)
Definition front_cleaned (now w : Q) (before after : deque) : Prop :=
  exists removed,
    before = removed ++ after /\
    Forall (fun x => w < float_sub now x) removed /\
    match after with
    | [] => True
    | x :: _ => float_sub now x <= w
    end.

(** The float [q]: rounding leaves it as it is. *)
Definition representable (q : Q) : Prop := binary64 q == q.

(** Ascending order of a window, oldest entry first: every entry is at
    most every entry behind it. *)
Definition ascending (dq : deque) : Prop := StronglySorted Qle dq.

(** No entry of the window is later than the clock reading [hi]. *)
Definition bounded (hi : Q) (dq : deque) : Prop := Forall (fun x => x <= hi) dq.

(** Both windows are ascending and hold no entry later than the clock
    reading [hi]. *)
Definition well_formed (hi : Q) (self : t) : Prop :=
  ascending (requests_minute self) /\ bounded hi (requests_minute self) /\
  ascending (requests_day self) /\ bounded hi (requests_day self).

(** [m] is what remains of [d] after some entries are taken off its front. *)
Definition suffix_of (m d : deque) : Prop := exists front, d = front ++ m.

(** The clock does not go back: from reading [lo], along the two
    readings of each guarded request in turn, up to reading [now]. *)
Fixpoint clock_until (lo : Q) (reqs : list (Q * Q)) (now : Q) : Prop :=
  match reqs with
  | [] => lo <= now
  | (t_check, t_record) :: rest =>
      lo <= t_check /\ t_check <= t_record /\ clock_until t_record rest now
  end.

(** The timestamps a series of accepted requests records. *)
Definition recorded (reqs : list (Q * Q)) : list Q := map snd reqs.


(** The handler once the input is validated: the limiter guard, then
    the roll of [num_dice] dice of [num_sides] sides. *)
Definition guarded_roll (num_dice num_sides : Z) (t_check t_record : Q)
  (limiter : t) : t * list event :=
  let (limiter1, r) := check t_check limiter in
  if fst r
  then (limiter1, [LimiterCheck; Respond (snd r)])
  else (record_request t_record limiter1,
        [LimiterCheck; LimiterRecord; Roll num_dice num_sides]).

(** The bounds the handler puts on the two numbers. *)
Definition in_range (num_dice num_sides : Z) : Prop :=
  (1 <= num_dice <= 100)%Z /\ (2 <= num_sides <= 1000)%Z.

(** A decimal digit, by the table [unicode_decimal] of the runtime. *)
Definition is_digit (unicode_decimal : N -> option N) (c : N) : Prop :=
  unicode_decimal c <> None.

(** [s] is one or more digits [g1], the letter d, one or more digits
    [g2], and nothing else. *)
Definition dice_notation (unicode_decimal : N -> option N) (s g1 g2 : str)
  : Prop :=
  s = g1 ++ [100%N] ++ g2 /\
  g1 <> [] /\ g2 <> [] /\
  Forall (is_digit unicode_decimal) g1 /\ Forall (is_digit unicode_decimal) g2.

(** A run of digits cannot go on into [rest]. *)
Definition stops (unicode_decimal : N -> option N) (rest : str) : Prop :=
  match rest with
  | [] => True
  | c :: _ => unicode_decimal c = None
  end.

(** Two digit tables that agree on the code points of a string read it
    alike. *)
Definition agree (f g : N -> option N) (s : str) : Prop :=
  Forall (fun c => f c = g c) s.

(** A string of ASCII code points and decimal digits. *)
Definition plain (unicode_decimal : N -> option N) (s : str) : Prop :=
  Forall (fun c => (c < 128)%N \/ is_digit unicode_decimal c) s.

(** The group [g] of digits has no more digits than the limit lets
    [int] convert. *)
Definition fits (int_max_str_digits : N) (g : str) : Prop :=
  int_max_str_digits = 0%N \/ (N.of_nat (List.length g) <= int_max_str_digits)%N.

(** The limits the runtime accepts: none, or at least 640 digits
    ([sys.int_info.str_digits_check_threshold]). *)
Definition digit_limit (int_max_str_digits : N) : Prop :=
  int_max_str_digits = 0%N \/ (640 <= int_max_str_digits)%N.

(** The inputs that pass the validation of [diceroll]. *)
Definition valid_dice (unicode_decimal : N -> option N)
  (str_lower : str -> str) (int_max_str_digits : N) (dice : str) : Prop :=
  exists (g1 g2 : str) (num_dice num_sides : Z),
    dice_notation unicode_decimal (str_lower dice) g1 g2 /\
    int unicode_decimal int_max_str_digits g1 = Ok num_dice /\
    int unicode_decimal int_max_str_digits g2 = Ok num_sides /\
    in_range num_dice num_sides.

(** ** Series of guarded requests *)

(** Guarded requests served in turn, limited or not: the limiter left
    behind. *)
Fixpoint serve (reqs : list (Q * Q)) (self : t) : t :=
  match reqs with
  | [] => self
  | (t_check, t_record) :: rest => serve rest (fst (cycle t_check t_record self))
  end.

(** The timestamps recorded along the way, one for each request that
    passes the guard. *)
Fixpoint accepted (reqs : list (Q * Q)) (self : t) : list Q :=
  match reqs with
  | [] => []
  | (t_check, t_record) :: rest =>
      let (self1, r) := cycle t_check t_record self in
      if fst r then accepted rest self1 else t_record :: accepted rest self1
  end.

(** [lo <= x <= lo + w] *)
Definition in_span (lo w x : Q) : bool :=
  Qle_bool lo x && Qle_bool x (lo + w).

(** How many of the timestamps [l] fall in the span of [w] seconds that
    starts at [lo]. *)
Definition count_in_span (lo w : Q) (l : list Q) : nat :=
  List.length (filter (in_span lo w) l).

(** The clock along a series of guarded requests: no check is before
    the check of the request before it (or before [lo], for the first),
    and no record is before its check. *)
Fixpoint guard_clock (lo : Q) (reqs : list (Q * Q)) : Prop :=
  match reqs with
  | [] => True
  | (t_check, t_record) :: rest =>
      lo <= t_check /\ t_check <= t_record /\ guard_clock t_check rest
  end.

(** The window [dq] is what is left of the log [l] after entries older
    than [w] at reading [hi], by the test of the loop, were taken off
    its front. *)
Definition behind (w hi : Q) (l : list Q) (dq : deque) : Prop :=
  exists removed,
    l = removed ++ dq /\ Forall (fun x => w < float_sub hi x) removed.

(** The window keeps up with the log, and no span of [w] seconds holds
    more than [limit] entries of the log. *)
Definition tracks (w : Q) (limit : Z) (hi : Q) (l : list Q) (dq : deque)
  : Prop :=
  behind w hi l dq /\
  (forall lo, (Z.of_nat (count_in_span lo w l) <= Z.max 0 limit)%Z).

(** ** The rolls of the diceroll command *)

Section Rolls.

(** The random source of the Python runtime: [random.randint(a, b)] in
    a state of the generator gives an integer and the next state. *)
Variable rng : Type.
Variable randint : Z -> Z -> rng -> Z * rng.

(** [[random.randint(1, num_sides) for _ in range(n)]] *)
Fixpoint roll_n (n : nat) (num_sides : Z) (g : rng) : list Z * rng :=
  match n with
  | O => ([], g)
  | S n' =>
      let (r, g1) := randint 1 num_sides g in
      let (rs, g2) := roll_n n' num_sides g1 in
      (r :: rs, g2)
  end.

(** [rolls], for [range(num_dice)]: no iteration when [num_dice] is zero
    or negative. *)
Definition roll_dice (num_dice num_sides : Z) (g : rng) : list Z * rng :=
  roll_n (Z.to_nat num_dice) num_sides g.

End Rolls.

(** [sum(rolls)] *)
Definition sum (rolls : list Z) : Z := fold_left Z.add rolls 0%Z.

(** ** Series of diceroll commands *)

(** The handler went on to roll the dice. *)
Definition rolled (events : list event) : bool :=
  existsb (fun e => match e with Roll _ _ => true | _ => false end) events.

(** diceroll commands handled in turn on the shared limiter, each with
    its input and the two clock readings of its guard: the recorded
    timestamps of the ones that roll. *)
Fixpoint rolls_at
  (unicode_decimal : N -> option N) (str_lower : str -> str)
  (int_max_str_digits : N)
  (invocations : list (str * (Q * Q))) (limiter : t) : list Q :=
  match invocations with
  | [] => []
  | (dice, (t_check, t_record)) :: rest =>
      let (limiter1, events) :=
        diceroll unicode_decimal str_lower int_max_str_digits dice
          t_check t_record limiter in
      if rolled events
      then t_record
           :: rolls_at unicode_decimal str_lower int_max_str_digits rest limiter1
      else rolls_at unicode_decimal str_lower int_max_str_digits rest limiter1
  end.

(** ** The tarot and yesno commands and the tarot question form *)

(** [discord.Color.purple()], [.green()], [.red()] *)
Inductive color : Type := Purple | Green | Red.

(** A [discord.Embed], as far as the handlers fill it in. *)
Record embed : Type := mk_embed {
  embed_title : string;
  embed_description : string;
  embed_color : color;
  embed_fields : list (string * string);
  embed_footer : option string
}.

(** What a handler does to the outside, in order.  The calls on the SDK
    are taken to return; the console output is left out. *)
Inductive effect : Type :=
| CtxRespond (content : string)            (* ctx.respond(content, ephemeral=True) *)
| CtxDefer                                 (* ctx.defer() *)
| ResponseDefer                            (* interaction.response.defer(ephemeral=False) *)
| Generate (prompt : string)               (* ask_gemini(prompt) *)
| FollowupEphemeral (content : string)     (* followup.send(content, ephemeral=True) *)
| FollowupView (content card_info : string) (* followup.send(content, view=TarotInquiryView(card_info)) *)
| FollowupEmbed (e : embed)                (* followup.send(embed=e) *)
| AddReaction (emoji : string)             (* response_message.add_reaction(emoji) *)
| Unhandled (e : exn).                     (* an exception leaves the handler *)

(** The line feed of ["\n"]. *)
Definition LF : string := String (ascii_of_nat 10) EmptyString.

Definition TAROT_PROMPT : string :=
  "Bạn là một người gieo bài Tarot. Hãy rút một lá bài ngẫu nhiên từ bộ bài Tarot (Major hoặc Minor Arcana). Sau đó, chọn ngẫu nhiên trạng thái của nó (xuôi hoặc ngược). Chỉ trả về tên lá bài và trạng thái theo định dạng: 'Tên Lá Bài (Xuôi/Ngược)'. Ví dụ: 'The Magician (Upright)'. Trả lời bằng tiếng Việt.".

Section Handlers.

Variable candidate : Type.

(** [str.strip] of the Python runtime. *)
Variable strip : string -> string.

(** What follows [await ask_gemini(prompt)], given the outcome
    [generated] of the call the helper makes. *)
Definition then_reply
  (generated : res (response candidate)) (k : string -> list effect)
  : list effect :=
  match ask_gemini generated with
  | Ok reply => k reply
  | Raise e => [Unhandled e]
  | OutOfFuel => []
  end.

(** [tarot] *)
Definition tarot (mention : string) (generated : res (response candidate))
  (t_check t_record : Q) (limiter : t) : t * list effect :=
  let (limiter1, r) := check t_check limiter in
  if fst r
  then (limiter1, [CtxRespond (snd r)])
  else
    (record_request t_record limiter1,
     CtxDefer :: Generate TAROT_PROMPT ::
     then_reply generated (fun card_info =>
       [FollowupView
          ("Vũ trụ đã gửi một thông điệp cho " ++ mention
           ++ " qua lá bài **" ++ strip card_info ++ "**." ++ LF
           ++ "Bạn có muốn hỏi gì thêm về lá bài này không?")%string
          (strip card_info)])).

(** [TarotInquiryModal.callback], for the card of the form and the
    question typed into it. *)
Definition callback (card_info question display_name : string)
  (generated : res (response candidate))
  (t_check t_record : Q) (limiter : t) : t * list effect :=
  let (limiter1, r) := check t_check limiter in
  if fst r
  then (limiter1, [ResponseDefer; FollowupEphemeral (snd r)])
  else
    (record_request t_record limiter1,
     ResponseDefer ::
     Generate
       ("Bạn là một chuyên gia Tarot sâu sắc và thấu cảm. Lá bài đã được rút là '"
        ++ card_info ++ "'. Người dùng có câu hỏi: '" ++ question
        ++ "'. Hãy phân tích, kết nối ý nghĩa của lá bài với câu hỏi để đưa ra một lời khuyên chân thành, chi tiết và sâu sắc. Sử dụng ngôn ngữ tiếng Việt tự nhiên, gần gũi.")%string ::
     then_reply generated (fun interpretation =>
       [FollowupEmbed
          (mk_embed ("Lời Giải Đáp Cho Lá " ++ card_info)%string
             interpretation Purple []
             (Some ("Dành cho câu hỏi của " ++ display_name)%string))])).

(** [yesno]; [pick] is the index [random.choice] draws in
    [["Có", "Không"]]: [false] for 0, [true] for 1. *)
Definition yesno (question display_name : string) (pick : bool)
  (generated : res (response candidate))
  (t_check t_record : Q) (limiter : t) : t * list effect :=
  let (limiter1, r) := check t_check limiter in
  if fst r
  then (limiter1, [CtxRespond (snd r)])
  else
    let answer : string := (if pick then "Không" else "Có")%string in
    (record_request t_record limiter1,
     CtxDefer ::
     Generate
       ("Bạn là một nhà tiên tri hóm hỉnh. Với câu hỏi '" ++ question
        ++ "', số phận đã thì thầm câu trả lời là '" ++ answer
        ++ "'. Hãy diễn giải câu trả lời này một cách đầy ẩn ý, thú vị, và đừng tiết lộ trực tiếp 'Có' hay 'Không'. Hãy trả lời bằng tiếng Việt.")%string ::
     then_reply generated (fun presentation =>
       [FollowupEmbed
          (mk_embed ("Dành cho câu hỏi của " ++ display_name)%string
             ("> " ++ question)%string
             (if String.eqb answer "Có" then Green else Red)
             [("Vũ trụ thì thầm..."%string, presentation)]
             None);
        AddReaction (if String.eqb answer "Có" then "👍" else "👎")%string])).

End Handlers.

(** The handler calls the text-generation helper. *)
Definition generates (effects : list effect) : bool :=
  existsb (fun e => match e with Generate _ => true | _ => false end) effects.

(** The slash commands that reach the text-generation helper, and the
    tarot question form, each with what the user and the runtime
    supply. *)
Inductive command (candidate : Type) : Type :=
| Tarot (mention : string) (generated : res (response candidate))
| TarotQuestion (card_info question display_name : string)
    (generated : res (response candidate))
| YesNo (question display_name : string) (pick : bool)
    (generated : res (response candidate))
| DiceRoll (dice : str).

Arguments Tarot {candidate} mention generated.
Arguments TarotQuestion {candidate} card_info question display_name generated.
Arguments YesNo {candidate} question display_name pick generated.
Arguments DiceRoll {candidate} dice.

(** One command handled on the shared limiter: the limiter left behind,
    and whether the handler went on to the text generation (for
    diceroll: to the roll, which the generation follows). *)
Definition handle {candidate : Type}
  (strip : string -> string)
  (unicode_decimal : N -> option N) (str_lower : str -> str)
  (int_max_str_digits : N)
  (cmd : command candidate) (t_check t_record : Q) (limiter : t)
  : t * bool :=
  match cmd with
  | Tarot mention generated =>
      let (limiter1, effects) :=
        tarot candidate strip mention generated t_check t_record limiter in
      (limiter1, generates effects)
  | TarotQuestion card_info question display_name generated =>
      let (limiter1, effects) :=
        callback candidate card_info question display_name generated
          t_check t_record limiter in
      (limiter1, generates effects)
  | YesNo question display_name pick generated =>
      let (limiter1, effects) :=
        yesno candidate question display_name pick generated
          t_check t_record limiter in
      (limiter1, generates effects)
  | DiceRoll dice =>
      let (limiter1, events) :=
        diceroll unicode_decimal str_lower int_max_str_digits dice
          t_check t_record limiter in
      (limiter1, rolled events)
  end.

(** Commands handled in turn, each with the two clock readings of its
    guard: the recorded timestamps of the ones that go on to the text
    generation. *)
Fixpoint generated_at {A : Type} (handler : A -> Q -> Q -> t -> t * bool)
  (invocations : list (A * (Q * Q))) (limiter : t) : list Q :=
  match invocations with
  | [] => []
  | (a, (t_check, t_record)) :: rest =>
      let (limiter1, called) := handler a t_check t_record limiter in
      if called
      then t_record :: generated_at handler rest limiter1
      else generated_at handler rest limiter1
  end.

(** [limiter = RateLimiter(rpm_limit=10, daily_limit=499)] *)
Definition limiter : t := init 10 499.



(** How many of the timestamps [l] the test of the loop does not call
    older than [w] seconds at reading [now]. *)
Definition within (now w : Q) (l : list Q) : nat :=
  List.length (filter (fun x => negb (older now w x)) l).


(** ** Executable examples *)

Example check_fresh :
  check 5 (init 10 499) = (init 10 499, (false, ""%string)).
Proof. reflexivity. Qed.

Example check_drops_stale_front :
  check 100 (mk 10 499 [10; 39; 40; 99] [10; 39; 40; 99])
  = (mk 10 499 [40; 99] [10; 39; 40; 99], (false, ""%string)).
Proof. reflexivity. Qed.

Example check_exec_empty :
  check_exec 1 0 (init 0 0) = Ok (init 0 0, (true, MSG_MINUTE)).
Proof. reflexivity. Qed.

Example diceroll_2d6 :
  diceroll ascii_decimal (map ascii_lower) 4300 (str_of_string "2D6")
    1 2 (init 10 499)
  = (mk 10 499 [2] [2], [LimiterCheck; LimiterRecord; Roll 2 6]).
Proof. reflexivity. Qed.

Example diceroll_abc :
  diceroll ascii_decimal (map ascii_lower) 4300 (str_of_string "abc")
    1 2 (init 10 499)
  = (init 10 499, [Respond MSG_FORMAT]).
Proof. reflexivity. Qed.

(** The floats of the literals [0.1] and [60.1], and their float
    difference: [60.1 - 0.1 == 60.0] in Python, though the exact
    difference of the two floats is above 60. *)
Example float_literals :
  FLOAT_0_1 == 3602879701896397 # 36028797018963968 /\
  FLOAT_60_1 == 8458323050155213 # 140737488355328 /\
  representable FLOAT_0_1 /\ representable FLOAT_60_1 /\
  60 < FLOAT_60_1 - FLOAT_0_1 /\
  float_sub FLOAT_60_1 FLOAT_0_1 == 60.
Proof. repeat split; vm_compute; reflexivity. Qed.

Example half_ulp_windows :
  half_ulp 60 = 1 # 281474976710656 /\ half_ulp 86400 = 1 # 137438953472.
Proof. split; vm_compute; reflexivity. Qed.

(** [str(n)] and the error of [int] for a string of 4301 digits. *)
Example int_too_long :
  int ascii_decimal 4300 (repeat 48%N 4301)
  = Raise (ValueError
             "Exceeds the limit (4300 digits) for integer string conversion: value has 4301 digits; use sys.set_int_max_str_digits() to increase the limit") /\
  int ascii_decimal 4300 (repeat 48%N 4299 ++ [50%N]) = Ok 2%Z /\
  int ascii_decimal 0 (repeat 48%N 4300 ++ [50%N]) = Ok 2%Z.
Proof. repeat split; vm_compute; reflexivity. Qed.

(** ** Rounding to the nearest float *)

Lemma nearest_even_le (s s' : Q) :
  s <= s' -> (nearest_even s <= nearest_even s')%Z.
Proof.
  intros H. unfold nearest_even.
  pose proof (Qfloor_le s) as F1. pose proof (Qlt_floor s) as F2.
  pose proof (Qfloor_le s') as F1'. pose proof (Qlt_floor s') as F2'.
  pose proof (Qfloor_resp_le _ _ H) as Hf.
  rewrite inject_Z_plus in F2, F2'.
  destruct (Z.eq_dec (Qfloor s) (Qfloor s')) as [E | E].
  - rewrite <- E in *.
    destruct (Qcompare_spec (s - inject_Z (Qfloor s)) (1 # 2));
      destruct (Qcompare_spec (s' - inject_Z (Qfloor s)) (1 # 2));
      destruct (Z.even (Qfloor s)); try lia; exfalso; lra.
  - destruct (Qcompare (s - inject_Z (Qfloor s)) (1 # 2));
      destruct (Qcompare (s' - inject_Z (Qfloor s')) (1 # 2));
      destruct (Z.even (Qfloor s)); destruct (Z.even (Qfloor s')); lia.
Qed.

Lemma nearest_even_inject_Z (m : Z) : nearest_even (inject_Z m) = m.
Proof.
  unfold nearest_even. rewrite Qfloor_Z.
  destruct (Qcompare_spec (inject_Z m - inject_Z m) (1 # 2));
    try reflexivity; exfalso; lra.
Qed.

(** More than half way from [n] to [n + 1], the nearest integer is at
    least [n + 1]. *)
Lemma nearest_even_above_half (n : Z) (s : Q) :
  inject_Z n + (1 # 2) < s -> (n + 1 <= nearest_even s)%Z.
Proof.
  intros H. unfold nearest_even.
  pose proof (Qfloor_le s) as F1. pose proof (Qlt_floor s) as F2.
  rewrite inject_Z_plus in F2.
  assert (Hn : (n <= Qfloor s)%Z).
  { rewrite <- (Qfloor_Z n). apply Qfloor_resp_le. lra. }
  destruct (Z.eq_dec (Qfloor s) n) as [E | E].
  - rewrite E in *.
    destruct (Qcompare_spec (s - inject_Z n) (1 # 2)); try lia; exfalso; lra.
  - destruct (Qcompare (s - inject_Z (Qfloor s)) (1 # 2));
      destruct (Z.even (Qfloor s)); lia.
Qed.

Lemma two_neq_0 : ~ 2 == 0.
Proof. intros H; discriminate H. Qed.

Lemma one_lt_two : 1 < 2.
Proof. reflexivity. Qed.

Lemma pow2_pos (e : Z) : 0 < 2 ^ e.
Proof. apply Qpower_0_lt. reflexivity. Qed.

Lemma pow2_succ (e : Z) : 2 ^ (e + 1) == 2 * 2 ^ e.
Proof. rewrite Qpower_plus by apply two_neq_0. rewrite Qpower_1_r. ring. Qed.

Lemma log2_Q (n : Z) :
  (0 < n)%Z -> 2 ^ Z.log2 n <= inject_Z n /\ inject_Z n < 2 ^ (Z.log2 n + 1).
Proof.
  intros H. destruct (Z.log2_spec n H) as [L U].
  pose proof (Z.log2_nonneg n) as P.
  split.
  - change 2 with (inject_Z 2). rewrite <- Zpower_Qpower by assumption.
    rewrite <- Zle_Qle. assumption.
  - change 2 with (inject_Z 2). rewrite <- Zpower_Qpower by lia.
    rewrite <- Zlt_Qlt.
    replace (Z.log2 n + 1)%Z with (Z.succ (Z.log2 n)) by lia. assumption.
Qed.

(** [ulp_exponent] finds the binade of [q]. *)
Lemma ulp_exponent_spec (q : Q) :
  0 < q ->
  2 ^ (ulp_exponent q + 52) <= q /\ q < 2 ^ (ulp_exponent q + 53).
Proof.
  intros Hq. unfold ulp_exponent.
  set (a := Z.log2 (Qnum q)). set (b := Z.log2 (Z.pos (Qden q))).
  assert (Hn : (0 < Qnum q)%Z).
  { destruct q as [n d]. unfold Qlt in Hq. simpl in *. lia. }
  destruct (log2_Q _ Hn) as [La Ua]. fold a in La, Ua.
  destruct (log2_Q (Z.pos (Qden q)) eq_refl) as [Lb Ub]. fold b in Lb, Ub.
  assert (Eq : q == inject_Z (Qnum q) / inject_Z (Z.pos (Qden q))).
  { destruct q as [n d]. simpl. apply Qmake_Qdiv. }
  assert (Dpos : 0 < inject_Z (Z.pos (Qden q))) by (apply Qlt_alt; reflexivity).
  set (N := inject_Z (Qnum q)) in *. set (D := inject_Z (Z.pos (Qden q))) in *.
  pose proof (pow2_pos a) as Pa. pose proof (pow2_pos b) as Pb.
  rewrite pow2_succ in Ua, Ub.
  assert (Ek : 2 ^ (a - b) == 2 ^ a / 2 ^ b) by (apply Qpower_minus, two_neq_0).
  assert (Low : 2 ^ (a - b) / 2 < q).
  { rewrite Eq, Ek. apply Qlt_shift_div_l; [assumption|].
    unfold Qdiv.
    setoid_replace (2 ^ a * / 2 ^ b * / 2 * D)
      with ((2 ^ a) * (D / (2 * 2 ^ b))) by (field; lra).
    assert (D / (2 * 2 ^ b) < 1) by (apply Qlt_shift_div_r; lra).
    nra. }
  assert (High : q < 2 * 2 ^ (a - b)).
  { rewrite Eq, Ek. apply Qlt_shift_div_r; [assumption|].
    setoid_replace (2 * (2 ^ a / 2 ^ b) * D)
      with ((2 * 2 ^ a) * (D / 2 ^ b)) by (field; lra).
    assert (1 <= D / 2 ^ b) by (apply Qle_shift_div_l; lra).
    nra. }
  destruct (Qle_bool (2 ^ (a - b)) q) eqn:B.
  - apply Qle_bool_iff in B.
    replace (a - b - 52 + 52)%Z with (a - b)%Z by lia.
    replace (a - b - 52 + 53)%Z with (a - b + 1)%Z by lia.
    rewrite pow2_succ. split; assumption.
  - assert (B' : q < 2 ^ (a - b)).
    { apply Qnot_le_lt. intros C. apply Qle_bool_iff in C. congruence. }
    replace (a - b - 53 + 53)%Z with (a - b)%Z by lia.
    replace (a - b - 53 + 52)%Z with (a - b - 1)%Z by lia.
    split; [|assumption].
    rewrite (Qpower_minus 2 (a - b) 1 two_neq_0). rewrite Qpower_1_r.
    apply Qlt_le_weak. assumption.
Qed.

Lemma ulp_exponent_unique (q : Q) (k : Z) :
  2 ^ k <= q -> q < 2 ^ (k + 1) -> ulp_exponent q = (k - 52)%Z.
Proof.
  intros L U. pose proof (pow2_pos k) as P.
  assert (Hq : 0 < q) by lra.
  destruct (ulp_exponent_spec q Hq) as [L' U'].
  assert (ulp_exponent q + 52 < k + 1)%Z
    by (apply (Qpower_lt_compat_l_inv 2); [lra | exact one_lt_two]).
  assert (k < ulp_exponent q + 53)%Z
    by (apply (Qpower_lt_compat_l_inv 2); [lra | exact one_lt_two]).
  lia.
Qed.

(** The significand of [q > 0] before rounding is between [2^52] and
    [2^53]. *)
Lemma significand_range (q : Q) :
  0 < q ->
  2 ^ 52 <= q / 2 ^ ulp_exponent q /\ q / 2 ^ ulp_exponent q <= 2 ^ 53.
Proof.
  intros Hq. destruct (ulp_exponent_spec q Hq) as [L U].
  rewrite Qpower_plus in L, U by apply two_neq_0.
  pose proof (pow2_pos (ulp_exponent q)) as P.
  split.
  - apply Qle_shift_div_l; [assumption|]. rewrite Qmult_comm. assumption.
  - apply Qle_shift_div_r; [assumption|]. rewrite Qmult_comm.
    apply Qlt_le_weak. assumption.
Qed.

Lemma round_pos_range (q : Q) :
  0 < q ->
  2 ^ (ulp_exponent q + 52) <= round_pos q /\
  round_pos q <= 2 ^ (ulp_exponent q + 53).
Proof.
  intros Hq. destruct (significand_range q Hq) as [L U].
  assert (R : (2 ^ 52 <= nearest_even (q / 2 ^ ulp_exponent q) <= 2 ^ 53)%Z).
  { split.
    - rewrite <- (nearest_even_inject_Z (2 ^ 52)). apply nearest_even_le.
      rewrite Zpower_Qpower by lia. exact L.
    - rewrite <- (nearest_even_inject_Z (2 ^ 53)). apply nearest_even_le.
      rewrite Zpower_Qpower by lia. exact U. }
  destruct R as [RL RU]. unfold round_pos.
  pose proof (pow2_pos (ulp_exponent q)) as P.
  rewrite !(Qpower_plus 2 (ulp_exponent q)) by apply two_neq_0.
  rewrite !(Qmult_comm (2 ^ ulp_exponent q)).
  assert (E52 : inject_Z (2 ^ 52) == 2 ^ 52) by reflexivity.
  assert (E53 : inject_Z (2 ^ 53) == 2 ^ 53) by reflexivity.
  rewrite Zle_Qle in RL, RU. rewrite E52 in RL. rewrite E53 in RU.
  split; (apply Qmult_le_compat_r; [assumption | apply Qlt_le_weak, P]).
Qed.

Lemma round_pos_le (x y : Q) : 0 < x -> x <= y -> round_pos x <= round_pos y.
Proof.
  intros Hx Hxy. assert (Hy : 0 < y) by lra.
  destruct (ulp_exponent_spec x Hx) as [Lx Ux].
  destruct (ulp_exponent_spec y Hy) as [Ly Uy].
  assert (Hle : (ulp_exponent x <= ulp_exponent y)%Z).
  { destruct (Z_le_gt_dec (ulp_exponent x) (ulp_exponent y)) as [|G];
      [assumption|exfalso].
    assert (2 ^ (ulp_exponent y + 53) <= 2 ^ (ulp_exponent x + 52))
      by (apply Qpower_le_compat_l; [lia | discriminate]).
    lra. }
  destruct (Z.eq_dec (ulp_exponent x) (ulp_exponent y)) as [E | E].
  - unfold round_pos. rewrite E.
    pose proof (pow2_pos (ulp_exponent y)) as P.
    apply Qmult_le_compat_r; [|lra].
    rewrite <- Zle_Qle. apply nearest_even_le.
    apply Qmult_le_compat_r; [assumption|].
    apply Qlt_le_weak, Qinv_lt_0_compat, P.
  - destruct (round_pos_range x Hx) as [_ Rx].
    destruct (round_pos_range y Hy) as [Ry _].
    assert (2 ^ (ulp_exponent x + 53) <= 2 ^ (ulp_exponent y + 52))
      by (apply Qpower_le_compat_l; [lia | discriminate]).
    lra.
Qed.

Lemma round_pos_pos (q : Q) : 0 < q -> 0 < round_pos q.
Proof.
  intros Hq. destruct (round_pos_range q Hq) as [L _].
  pose proof (pow2_pos (ulp_exponent q + 52)). lra.
Qed.

Lemma binary64_pos (q : Q) : 0 < q -> binary64 q = round_pos q.
Proof.
  intros H. unfold binary64.
  destruct (Qcompare_spec q 0); try reflexivity; exfalso; lra.
Qed.

(** Rounding keeps the order. *)
Lemma binary64_le (x y : Q) : x <= y -> binary64 x <= binary64 y.
Proof.
  intros H. unfold binary64.
  destruct (Qcompare_spec x 0) as [Ex | Lx | Gx];
    destruct (Qcompare_spec y 0) as [Ey | Ly | Gy]; try (exfalso; lra); try lra.
  - assert (0 < round_pos y) by (apply round_pos_pos; lra). lra.
  - assert (0 < round_pos (- x)) by (apply round_pos_pos; lra). lra.
  - assert (round_pos (- y) <= round_pos (- x)) by (apply round_pos_le; lra).
    lra.
  - assert (0 < round_pos (- x)) by (apply round_pos_pos; lra).
    assert (0 < round_pos y) by (apply round_pos_pos; lra). lra.
  - apply round_pos_le; lra.
Qed.

(** Above the middle between a float [M * 2^(k-52)] of the binade from
    [2^k] to [2^(k+1)] and the next float, the rounding goes up. *)
Lemma binary64_above (k M : Z) (a : Q) :
  2 ^ k <= inject_Z M * 2 ^ (k - 52) ->
  inject_Z M * 2 ^ (k - 52) < 2 ^ (k + 1) ->
  (inject_Z M + (1 # 2)) * 2 ^ (k - 52) < a ->
  inject_Z M * 2 ^ (k - 52) < binary64 a.
Proof.
  intros Lw Uw Ha.
  pose proof (pow2_pos k) as Pk. pose proof (pow2_pos (k - 52)) as Pu.
  assert (Hmid : inject_Z M * 2 ^ (k - 52)
                 < (inject_Z M + (1 # 2)) * 2 ^ (k - 52)) by nra.
  assert (Hq : 0 < a) by lra.
  rewrite (binary64_pos a Hq).
  destruct (Qlt_le_dec a (2 ^ (k + 1))) as [U | U].
  - unfold round_pos. rewrite (ulp_exponent_unique a k) by (try assumption; lra).
    assert (Hr : (M + 1 <= nearest_even (a / 2 ^ (k - 52)))%Z).
    { apply nearest_even_above_half. apply Qlt_shift_div_l; assumption. }
    rewrite Zle_Qle, inject_Z_plus in Hr.
    change (inject_Z 1) with 1 in Hr. nra.
  - destruct (ulp_exponent_spec a Hq) as [L' U'].
    destruct (round_pos_range a Hq) as [R _].
    assert (k + 1 < ulp_exponent a + 53)%Z
      by (apply (Qpower_lt_compat_l_inv 2); [lra | exact one_lt_two]).
    assert (2 ^ (k + 1) <= 2 ^ (ulp_exponent a + 52))
      by (apply Qpower_le_compat_l; [lia | discriminate]).
    lra.
Qed.

(** The two windows are floats. *)
Lemma representable_60 : representable 60.
Proof. reflexivity. Qed.

Lemma representable_86400 : representable 86400.
Proof. reflexivity. Qed.

(** A rounded number is above 60 exactly when the number is above the
    middle between 60 and the next float, which rounds to 60. *)
Lemma binary64_above_60 (a : Q) : 60 < binary64 a <-> 60 + half_ulp 60 < a.
Proof.
  split.
  - intros H. apply Qnot_le_lt. intros C.
    apply binary64_le in C.
    assert (E : binary64 (60 + half_ulp 60) == 60) by reflexivity.
    lra.
  - intros H.
    assert (E : inject_Z 8444249301319680 * 2 ^ (5 - 52) == 60) by reflexivity.
    rewrite <- E. apply binary64_above.
    + rewrite E. discriminate.
    + rewrite E. reflexivity.
    + assert (E' : (inject_Z 8444249301319680 + (1 # 2)) * 2 ^ (5 - 52)
                   == 60 + half_ulp 60) by reflexivity.
      rewrite E'. exact H.
Qed.

Lemma binary64_above_86400 (a : Q) :
  86400 < binary64 a <-> 86400 + half_ulp 86400 < a.
Proof.
  split.
  - intros H. apply Qnot_le_lt. intros C.
    apply binary64_le in C.
    assert (E : binary64 (86400 + half_ulp 86400) == 86400) by reflexivity.
    lra.
  - intros H.
    assert (E : inject_Z 5937362789990400 * 2 ^ (16 - 52) == 86400)
      by reflexivity.
    rewrite <- E. apply binary64_above.
    + rewrite E. discriminate.
    + rewrite E. reflexivity.
    + assert (E' : (inject_Z 5937362789990400 + (1 # 2)) * 2 ^ (16 - 52)
                   == 86400 + half_ulp 86400) by reflexivity.
      rewrite E'. exact H.
Qed.

(** ** The age test *)

Lemma older_true (now w x : Q) :
  older now w x = true <-> w < float_sub now x.
Proof.
  unfold older. rewrite (Qgt_alt (float_sub now x) w).
  destruct (float_sub now x ?= w); split; congruence.
Qed.

Lemma older_false (now w x : Q) :
  older now w x = false <-> float_sub now x <= w.
Proof.
  unfold older. rewrite (Qle_alt (float_sub now x) w).
  destruct (float_sub now x ?= w); split; congruence.
Qed.

(** The float difference grows with the reading and shrinks with the
    entry. *)
Lemma float_sub_le (p q x y : Q) :
  p <= q -> y <= x -> float_sub p x <= float_sub q y.
Proof.
  intros Hpq Hyx. unfold float_sub. apply binary64_le. lra.
Qed.

(** What the test calls older than a window that is a float is older
    than the window: rounding does not take a difference across a float. *)
Lemma float_sub_exact (now w x : Q) :
  representable w -> w < float_sub now x -> w < now - x.
Proof.
  intros Hw H. apply Qnot_le_lt. intros C.
  apply binary64_le in C. unfold float_sub in H. unfold representable in Hw.
  lra.
Qed.

Lemma older_exact (now w x : Q) :
  representable w -> older now w x = true -> w < now - x.
Proof.
  intros Hw H. apply older_true in H. now apply float_sub_exact.
Qed.

(** An entry within a window that is a float is not called old. *)
Lemma fresh_not_older (now w x : Q) :
  representable w -> now - x <= w -> older now w x = false.
Proof.
  intros Hw H. apply older_false.
  apply binary64_le in H. unfold float_sub, representable in *. lra.
Qed.

(** The test of the minute window and of the day window, by the exact
    age of the entry. *)
Lemma float_sub_minute (now x : Q) :
  60 < float_sub now x <-> 60 + half_ulp 60 < now - x.
Proof. apply binary64_above_60. Qed.

Lemma float_sub_day (now x : Q) :
  86400 < float_sub now x <-> 86400 + half_ulp 86400 < now - x.
Proof. apply binary64_above_86400. Qed.

Lemma older_minute (now x : Q) :
  older now 60 x = true <-> 60 + half_ulp 60 < now - x.
Proof. rewrite older_true. apply float_sub_minute. Qed.

Lemma older_day (now x : Q) :
  older now 86400 x = true <-> 86400 + half_ulp 86400 < now - x.
Proof. rewrite older_true. apply float_sub_day. Qed.

(** An entry that is old at one reading is old at every later reading. *)
Lemma older_later (p q w x : Q) :
  p <= q -> older p w x = true -> older q w x = true.
Proof.
  rewrite !older_true. intros Hpq Hp.
  pose proof (float_sub_le p q x x Hpq (Qle_refl x)). lra.
Qed.

(** With an old entry, every entry before it is old. *)
Lemma older_earlier (now w x y : Q) :
  x <= y -> older now w y = true -> older now w x = true.
Proof.
  rewrite !older_true. intros Hxy Hy.
  pose proof (float_sub_le now now y x (Qle_refl now) Hxy). lra.
Qed.

(** An entry too old for the day window is too old for the minute window. *)
Lemma older_day_minute (now x : Q) :
  older now 86400 x = true -> older now 60 x = true.
Proof.
  rewrite !older_true. intros H. lra.
Qed.

Ltac case_older now w x :=
  let E := fresh "Eold" in
  destruct (older now w x) eqn:E;
  [ pose proof (proj1 (older_true now w x) E)
  | pose proof (proj1 (older_false now w x) E) ].

(** ** The cleaning loop *)

Lemma clean_front_cleaned (now w : Q) (dq : deque) :
  front_cleaned now w dq (clean now w dq).
Proof.
  induction dq as [|x tl IH]; simpl.
  - exists []. repeat split. constructor.
  - case_older now w x.
    + destruct IH as (removed & Heq & Hold & Hfront).
      exists (x :: removed). repeat split.
      * simpl. now rewrite <- Heq.
      * now constructor.
      * exact Hfront.
    + exists []. repeat split. constructor. assumption.
Qed.

Lemma clean_length (now w : Q) (dq : deque) :
  (List.length (clean now w dq) <= List.length dq)%nat.
Proof.
  induction dq as [|x tl IH]; simpl; [lia|].
  destruct (older now w x); simpl; lia.
Qed.

(** The bounded loop agrees with [clean] as soon as the bound exceeds the
    length of the deque. *)
Lemma clean_loop_clean (now w : Q) :
  forall (fuel : nat) (dq : deque),
    (List.length dq < fuel)%nat ->
    clean_loop fuel now w dq = Ok (clean now w dq).
Proof.
  induction fuel as [|fuel IH]; intros dq Hlen; [lia|].
  destruct dq as [|x tl]; simpl; [reflexivity|].
  destruct (older now w x); simpl; [|reflexivity].
  apply IH. simpl in Hlen. lia.
Qed.

(** The bounded loop never raises, whatever the bound. *)
Lemma clean_loop_no_raise (now w : Q) :
  forall (fuel : nat) (dq : deque),
    clean_loop fuel now w dq = OutOfFuel \/
    clean_loop fuel now w dq = Ok (clean now w dq).
Proof.
  induction fuel as [|fuel IH]; intros dq; [now left|].
  destruct dq as [|x tl]; simpl; [now right|].
  destruct (older now w x); simpl; [apply IH|now right].
Qed.

Lemma check_exec_check (fuel : nat) (now : Q) (self : t) :
  (List.length (requests_minute self) < fuel)%nat ->
  (List.length (requests_day self) < fuel)%nat ->
  check_exec fuel now self = Ok (check now self).
Proof.
  intros Hm Hd. unfold check_exec, check.
  rewrite (clean_loop_clean now 60 fuel _ Hm).
  rewrite (clean_loop_clean now 86400 fuel _ Hd). simpl.
  destruct (rpm_limit self <=? _)%Z; [reflexivity|].
  destruct (daily_limit self <=? _)%Z; reflexivity.
Qed.


(** ** The decision of [check] *)

Lemma check_fst (now : Q) (self : t) :
  fst (check now self)
  = mk (rpm_limit self) (daily_limit self)
       (clean now 60 (requests_minute self))
       (clean now 86400 (requests_day self)).
Proof.
  unfold check.
  destruct (rpm_limit self <=? _)%Z; [reflexivity|].
  destruct (daily_limit self <=? _)%Z; reflexivity.
Qed.

Lemma check_snd_minute (now : Q) (self : t) :
  (rpm_limit self
   <= Z.of_nat (List.length (clean now 60 (requests_minute self))))%Z ->
  snd (check now self) = (true, MSG_MINUTE).
Proof.
  intros H. unfold check.
  destruct (Z.leb_spec (rpm_limit self)
              (Z.of_nat (List.length (clean now 60 (requests_minute self)))));
    [reflexivity|lia].
Qed.

Lemma check_snd_day (now : Q) (self : t) :
  (Z.of_nat (List.length (clean now 60 (requests_minute self)))
   < rpm_limit self)%Z ->
  (daily_limit self
   <= Z.of_nat (List.length (clean now 86400 (requests_day self))))%Z ->
  snd (check now self) = (true, MSG_DAY).
Proof.
  intros Hm Hd. unfold check.
  destruct (Z.leb_spec (rpm_limit self)
              (Z.of_nat (List.length (clean now 60 (requests_minute self)))));
    [lia|].
  destruct (Z.leb_spec (daily_limit self)
              (Z.of_nat (List.length (clean now 86400 (requests_day self)))));
    [reflexivity|lia].
Qed.

Lemma check_snd_free (now : Q) (self : t) :
  (Z.of_nat (List.length (clean now 60 (requests_minute self)))
   < rpm_limit self)%Z ->
  (Z.of_nat (List.length (clean now 86400 (requests_day self)))
   < daily_limit self)%Z ->
  snd (check now self) = (false, ""%string).
Proof.
  intros Hm Hd. unfold check.
  destruct (Z.leb_spec (rpm_limit self)
              (Z.of_nat (List.length (clean now 60 (requests_minute self)))));
    [lia|].
  destruct (Z.leb_spec (daily_limit self)
              (Z.of_nat (List.length (clean now 86400 (requests_day self)))));
    [lia|reflexivity].
Qed.

Lemma check_not_limited (now : Q) (self : t) :
  fst (snd (check now self)) = false ->
  (Z.of_nat (List.length (clean now 60 (requests_minute self)))
   < rpm_limit self)%Z /\
  (Z.of_nat (List.length (clean now 86400 (requests_day self)))
   < daily_limit self)%Z.
Proof.
  unfold check.
  destruct (Z.leb_spec (rpm_limit self)
              (Z.of_nat (List.length (clean now 60 (requests_minute self)))));
    [discriminate|].
  destruct (Z.leb_spec (daily_limit self)
              (Z.of_nat (List.length (clean now 86400 (requests_day self)))));
    [discriminate|].
  intros _. split; assumption.
Qed.

(** ** C1: what [check] does *)



(** ** C8: [check] has no error path *)

(** C8. For every limiter, empty windows included, and every clock
    reading, [check] terminates and returns a pair of a boolean and a
    string: once the iteration bound exceeds the lengths of the two
    windows the bounded run returns the result of [check]; and whatever
    the bound, it never raises, so the front of a deque is never read or
    popped when the deque is empty. *)
Theorem check_total (now : Q) (self : t) :
  exists (limiter' : t) (is_limited : bool) (message : string),
    check now self = (limiter', (is_limited, message)) /\
    (exists bound : nat,
        forall fuel : nat,
          (bound <= fuel)%nat ->
          check_exec fuel now self = Ok (limiter', (is_limited, message))) /\
    (forall (fuel : nat) (e : exn), check_exec fuel now self <> Raise e).
Proof.
  destruct (check now self) as [limiter' [is_limited message]] eqn:Hc.
  exists limiter', is_limited, message. split; [reflexivity|]. split.
  - exists (S (Nat.max (List.length (requests_minute self))
                       (List.length (requests_day self)))).
    intros fuel Hfuel. rewrite <- Hc. apply check_exec_check; lia.
  - intros fuel e. unfold check_exec.
    destruct (clean_loop_no_raise now 60 fuel (requests_minute self)) as [-> | ->];
      simpl; [discriminate|].
    destruct (clean_loop_no_raise now 86400 fuel (requests_day self)) as [-> | ->];
      simpl; [discriminate|].
    destruct (rpm_limit self <=? _)%Z; [discriminate|].
    destruct (daily_limit self <=? _)%Z; discriminate.
Qed.

(** ** C6: repeated checks *)

(** Cleaning at a reading and then at a later one is cleaning at the
    later one. *)
Lemma clean_later (p q w : Q) (dq : deque) :
  p <= q -> clean q w (clean p w dq) = clean q w dq.
Proof.
  intros Hpq. induction dq as [|x tl IH]; simpl; [reflexivity|].
  destruct (older p w x) eqn:Hp; [|reflexivity].
  now rewrite (older_later p q w x Hpq Hp).
Qed.

Lemma check_later (p q : Q) (self : t) :
  p <= q -> check q (fst (check p self)) = check q self.
Proof.
  intros Hpq. rewrite check_fst. unfold check. simpl.
  now rewrite !clean_later.
Qed.

(** What a check at [p] removed is old at every later reading [q]. *)
Lemma clean_removed_later (p q w : Q) (dq : deque) :
  representable w ->
  p <= q ->
  exists removed,
    dq = removed ++ clean p w dq /\ Forall (fun x => w < q - x) removed.
Proof.
  intros Hw Hpq.
  destruct (clean_front_cleaned p w dq) as (removed & Heq & Hold & _).
  exists removed. split; [exact Heq|].
  eapply Forall_impl; [|exact Hold].
  intros x Hx. simpl in Hx. apply (float_sub_exact p w x Hw) in Hx. lra.
Qed.

(** C6. [check] is idempotent with respect to the limiter: for every
    limiter and every series of earlier [check] calls with no
    [record_request] in between, the later calls (at the same clock
    readings, the first of them not before any earlier call's reading)
    return what they return without the earlier calls, and leave the
    same limiter behind; what an earlier call removes from a window is
    older than the window at the reading of the first later call, which
    would remove it anyway. *)
Theorem check_idempotent
  (self : t) (earlier : list Q) (now : Q) (later : list Q) :
  Forall (fun p => p <= now) earlier ->
  checks (now :: later) (fst (checks earlier self))
  = checks (now :: later) self
  /\
  (forall p, In p earlier ->
     forall s : t,
     exists removed_minute removed_day,
       requests_minute s
       = removed_minute ++ requests_minute (fst (check p s)) /\
       requests_day s
       = removed_day ++ requests_day (fst (check p s)) /\
       Forall (fun x => 60 < now - x) removed_minute /\
       Forall (fun x => 86400 < now - x) removed_day).
Proof.
  intros Hearlier. split.
  - revert self. induction Hearlier as [|p rest Hp Hrest IH]; intros self.
    + reflexivity.
    + assert (Hfst : fst (checks (p :: rest) self)
                     = fst (checks rest (fst (check p self)))).
      { simpl. destruct (check p self) as [s1 r1]. simpl.
        destruct (checks rest s1) as [s2 rs]. reflexivity. }
      rewrite Hfst, IH.
      change (checks (now :: later) ?s)
        with (let (self1, r) := check now s in
              let (self2, rs) := checks later self1 in (self2, r :: rs)).
      now rewrite (check_later p now self Hp).
  - intros p Hin s.
    assert (Hp : p <= now)
      by (rewrite Forall_forall in Hearlier; now apply Hearlier).
    destruct (clean_removed_later p now 60 (requests_minute s)
                representable_60 Hp) as (rm & Hrm & Holdm).
    destruct (clean_removed_later p now 86400 (requests_day s)
                representable_86400 Hp) as (rd & Hrd & Holdd).
    exists rm, rd. rewrite check_fst. simpl. auto.
Qed.

Lemma check_idempotent_witness :
  Forall (fun p => p <= 95) [70; 80] /\
  checks [95; 100] (fst (checks [70; 80] (mk 2 10 [0; 30; 50] [0; 30; 50])))
  = checks [95; 100] (mk 2 10 [0; 30; 50] [0; 30; 50]).
Proof.
  assert (H : Forall (fun p => p <= 95) [70; 80])
    by (repeat constructor; unfold Qle; simpl; lia).
  split; [exact H|].
  exact (proj1 (check_idempotent (mk 2 10 [0; 30; 50] [0; 30; 50])
                  [70; 80] 95 [100] H)).
Defined.

(** The order of the readings matters: a check made at a later reading
    than the one that follows it can remove an entry the following one
    still counts. *)
Example check_after_later_reading :
  snd (check 50 (mk 1 10 [0] [0])) = (true, MSG_MINUTE) /\
  snd (check 50 (fst (check 100 (mk 1 10 [0] [0])))) = (false, ""%string).
Proof. split; reflexivity. Qed.

(** ** C7: the windows stay in ascending order *)

Lemma clean_ascending (now w : Q) (dq : deque) :
  ascending dq -> ascending (clean now w dq).
Proof.
  unfold ascending. induction 1 as [|x tl Hs IH Hall]; simpl.
  - constructor.
  - destruct (older now w x); [exact IH|now constructor].
Qed.

Lemma clean_bounded (now w hi : Q) (dq : deque) :
  bounded hi dq -> bounded hi (clean now w dq).
Proof.
  unfold bounded. induction 1 as [|x tl Hx Htl IH]; simpl.
  - constructor.
  - destruct (older now w x); [exact IH|now constructor].
Qed.

Lemma bounded_later (lo hi : Q) (dq : deque) :
  lo <= hi -> bounded lo dq -> bounded hi dq.
Proof.
  intros Hle Hb. eapply Forall_impl; [|exact Hb].
  intros x Hx. simpl in Hx. lra.
Qed.

Lemma append_ascending (hi now : Q) (dq : deque) :
  hi <= now -> ascending dq -> bounded hi dq -> ascending (append dq now).
Proof.
  unfold ascending, bounded, append. intros Hle Hs.
  induction Hs as [|x tl Hs IH Hall]; intros Hb; simpl.
  - repeat constructor.
  - inversion Hb as [|? ? Hx Htl]; subst.
    constructor; [now apply IH|].
    apply Forall_app. split; [exact Hall|].
    constructor; [lra|constructor].
Qed.

Lemma append_bounded (hi now : Q) (dq : deque) :
  hi <= now -> bounded hi dq -> bounded now (append dq now).
Proof.
  unfold bounded, append. intros Hle Hb.
  apply Forall_app. split.
  - now apply (bounded_later hi now).
  - constructor; [lra|constructor].
Qed.

(** One call keeps a limiter well formed when the clock has not gone
    back. *)
Lemma step_well_formed (lo : Q) (o : op) (self : t) :
  lo <= op_time o -> well_formed lo self -> well_formed (op_time o) (step o self).
Proof.
  intros Hle (Hm & Hbm & Hd & Hbd). destruct o as [now|now]; simpl in *.
  - rewrite check_fst. unfold well_formed. simpl.
    repeat split.
    + now apply clean_ascending.
    + apply clean_bounded. now apply (bounded_later lo now).
    + now apply clean_ascending.
    + apply clean_bounded. now apply (bounded_later lo now).
  - unfold well_formed, record_request. simpl.
    repeat split.
    + now apply (append_ascending lo now).
    + now apply (append_bounded lo now).
    + now apply (append_ascending lo now).
    + now apply (append_bounded lo now).
Qed.

Lemma run_well_formed :
  forall (ops : list op) (lo : Q) (self : t),
    well_formed lo self ->
    StronglySorted Qle (lo :: map op_time ops) ->
    exists hi, well_formed hi (run ops self).
Proof.
  induction ops as [|o rest IH]; intros lo self Hwf Hclock; simpl.
  - now exists lo.
  - simpl in Hclock. apply StronglySorted_inv in Hclock.
    destruct Hclock as [Hrest Hlo].
    apply (IH (op_time o) (step o self)).
    + apply (step_well_formed lo); [|exact Hwf].
      now inversion Hlo.
    + exact Hrest.
Qed.

Lemma Qle_transitive : Relations_1.Transitive Qle.
Proof. intros x y z. apply Qle_trans. Qed.

(** C7. Assuming the clock does not go back from one call to the next,
    after every series of [check] and [record_request] calls on a new
    limiter both windows are in ascending order; and each call keeps a
    limiter well formed (windows ascending, no entry later than the last
    reading) when its reading is not before that last reading.
    [record_request] removes nothing: each window is the old one with
    the reading appended, old entries included.  Entries leave a window
    only in [check], which takes old entries off the front before it
    decides. *)
Theorem windows_ascending (rpm daily : Z) (ops : list op) :
  Sorted Qle (map op_time ops) ->
  (ascending (requests_minute (run ops (init rpm daily))) /\
   ascending (requests_day (run ops (init rpm daily)))) /\
  (forall (lo : Q) (o : op) (self : t),
      lo <= op_time o -> well_formed lo self ->
      well_formed (op_time o) (step o self)) /\
  (forall (now : Q) (self : t),
      requests_minute (step (OpRecord now) self)
      = requests_minute self ++ [now] /\
      requests_day (step (OpRecord now) self)
      = requests_day self ++ [now]) /\
  (forall (now : Q) (self : t),
      front_cleaned now 60 (requests_minute self)
        (requests_minute (step (OpCheck now) self)) /\
      front_cleaned now 86400 (requests_day self)
        (requests_day (step (OpCheck now) self))).
Proof.
  intros Hclock. split; [|split; [|split]].
  - assert (Hex : exists hi, well_formed hi (run ops (init rpm daily))).
    { destruct ops as [|o rest].
      - exists 0. repeat split; constructor.
      - apply (run_well_formed (o :: rest) (op_time o)).
        + repeat split; constructor.
        + apply Sorted_StronglySorted in Hclock; [|exact Qle_transitive].
          simpl in *. constructor; [exact Hclock|].
          constructor; [apply Qle_refl|].
          now apply StronglySorted_inv in Hclock. }
    destruct Hex as (hi & Hm & _ & Hd & _). now split.
  - exact step_well_formed.
  - intros now self. split; reflexivity.
  - intros now self. simpl. rewrite check_fst. simpl.
    split; apply clean_front_cleaned.
Qed.

Lemma windows_ascending_witness :
  Sorted Qle (map op_time [OpCheck 0; OpRecord 1; OpRecord 2;
                           OpCheck 100; OpRecord 100]) /\
  ascending (requests_minute
               (run [OpCheck 0; OpRecord 1; OpRecord 2;
                     OpCheck 100; OpRecord 100] (init 2 10))) /\
  ascending (requests_day
               (run [OpCheck 0; OpRecord 1; OpRecord 2;
                     OpCheck 100; OpRecord 100] (init 2 10))).
Proof.
  assert (H : Sorted Qle (map op_time [OpCheck 0; OpRecord 1; OpRecord 2;
                                       OpCheck 100; OpRecord 100]))
    by (simpl; repeat constructor; unfold Qle; simpl; lia).
  split; [exact H|].
  exact (proj1 (windows_ascending 2 10
                  [OpCheck 0; OpRecord 1; OpRecord 2;
                   OpCheck 100; OpRecord 100] H)).
Defined.

(** Old entries stay in the windows until the next [check]. *)
Example record_request_keeps_old :
  run [OpRecord 0; OpRecord 1000] (init 2 10) = mk 2 10 [0; 1000] [0; 1000] /\
  run [OpRecord 0; OpRecord 1000; OpCheck 1000] (init 2 10)
  = mk 2 10 [1000] [0; 1000].
Proof. split; reflexivity. Qed.

(** ** C9: the minute window is the tail of the day window *)

Lemma clean_suffix (now w : Q) (dq : deque) : suffix_of (clean now w dq) dq.
Proof.
  destruct (clean_front_cleaned now w dq) as (removed & Heq & _).
  now exists removed.
Qed.

Lemma suffix_of_trans (a b c : deque) :
  suffix_of a b -> suffix_of b c -> suffix_of a c.
Proof.
  intros [f1 ->] [f2 ->]. exists (f2 ++ f1). now rewrite app_assoc.
Qed.

Lemma suffix_of_length (m d : deque) :
  suffix_of m d -> (List.length m <= List.length d)%nat.
Proof.
  intros [front ->]. rewrite length_app. lia.
Qed.

(** Cleaning the same deque for the two windows: what is left for the
    minute is a tail of what is left for the day. *)
Lemma clean_minute_day (now : Q) (dq : deque) :
  suffix_of (clean now 60 dq) (clean now 86400 dq).
Proof.
  induction dq as [|x tl IH]; simpl.
  - now exists [].
  - destruct (older now 86400 x) eqn:Hday.
    + now rewrite (older_day_minute now x Hday).
    + apply (clean_suffix now 60 (x :: tl)).
Qed.

Lemma clean_suffix_of (now : Q) (m d : deque) :
  suffix_of m d -> suffix_of (clean now 60 m) (clean now 86400 d).
Proof.
  intros [front ->]. induction front as [|y front IH]; simpl.
  - apply clean_minute_day.
  - destruct (older now 86400 y); [exact IH|].
    apply (suffix_of_trans _ m).
    + apply clean_suffix.
    + now exists (y :: front).
Qed.

Lemma append_suffix_of (now : Q) (m d : deque) :
  suffix_of m d -> suffix_of (append m now) (append d now).
Proof.
  intros [front ->]. exists front. unfold append. now rewrite app_assoc.
Qed.

Lemma step_suffix_of (o : op) (self : t) :
  suffix_of (requests_minute self) (requests_day self) ->
  suffix_of (requests_minute (step o self)) (requests_day (step o self)).
Proof.
  intros H. destruct o as [now|now]; simpl.
  - rewrite check_fst. simpl. now apply clean_suffix_of.
  - now apply append_suffix_of.
Qed.

Lemma run_suffix_of (ops : list op) :
  forall self : t,
    suffix_of (requests_minute self) (requests_day self) ->
    suffix_of (requests_minute (run ops self)) (requests_day (run ops self)).
Proof.
  induction ops as [|o rest IH]; intros self H; simpl; [exact H|].
  apply IH. now apply step_suffix_of.
Qed.

(** C9. [record_request] appends one and the same reading to both
    windows.  So after every series of [check] and [record_request]
    calls on a new limiter (whatever the clock readings, a clock that
    does not go back included) the minute window is a suffix of the day
    window, and the day window is at least as long as the minute window. *)
Theorem minute_window_suffix_of_day (rpm daily : Z) (ops : list op) :
  (forall (now : Q) (self : t),
      requests_minute (record_request now self)
      = requests_minute self ++ [now] /\
      requests_day (record_request now self)
      = requests_day self ++ [now]) /\
  suffix_of (requests_minute (run ops (init rpm daily)))
            (requests_day (run ops (init rpm daily))) /\
  (List.length (requests_minute (run ops (init rpm daily)))
   <= List.length (requests_day (run ops (init rpm daily))))%nat.
Proof.
  assert (H : suffix_of (requests_minute (run ops (init rpm daily)))
                        (requests_day (run ops (init rpm daily)))).
  { apply run_suffix_of. now exists []. }
  split; [|split].
  - intros now self. split; reflexivity.
  - exact H.
  - now apply suffix_of_length.
Qed.

(** ** C2 and C3: the limits over a series of accepted requests *)

(** Entries within the window at a reading [hi] are not removed by a
    check at a reading up to [hi], wherever they are in the deque. *)
Lemma clean_keeps (c hi w : Q) (front acc : deque) :
  representable w ->
  c <= hi ->
  Forall (fun x => hi - x <= w) acc ->
  clean c w (front ++ acc) = clean c w front ++ acc.
Proof.
  intros Hw Hc Hacc. induction front as [|y front IH]; simpl.
  - destruct Hacc as [|x acc Hx Hacc]; simpl; [reflexivity|].
    rewrite (fresh_not_older c w x Hw); [reflexivity|lra].
  - destruct (older c w y); [exact IH|reflexivity].
Qed.

Lemma clock_until_bounds :
  forall (reqs : list (Q * Q)) (lo now : Q),
    clock_until lo reqs now ->
    lo <= now /\ Forall (fun r => fst r <= now) reqs.
Proof.
  induction reqs as [|[c tr] rest IH]; intros lo now H; simpl in H.
  - split; [exact H|constructor].
  - destruct H as (Hlo & Hct & Hrest).
    destruct (IH _ _ Hrest) as [Htn Hall].
    split; [lra|]. constructor; [simpl; lra|exact Hall].
Qed.

Lemma accept_all_cons (c tr : Q) (rest : list (Q * Q)) (self after : t) :
  accept_all ((c, tr) :: rest) self = Some after ->
  fst (snd (check c self)) = false /\
  accept_all rest (record_request tr (fst (check c self))) = Some after.
Proof.
  simpl. unfold cycle. destruct (check c self) as [s1 r]. simpl.
  destruct (fst r) eqn:Hr; simpl; rewrite Hr; [discriminate|].
  intros H. now split.
Qed.

Lemma accept_all_limits :
  forall (reqs : list (Q * Q)) (self after : t),
    accept_all reqs self = Some after ->
    rpm_limit after = rpm_limit self /\ daily_limit after = daily_limit self.
Proof.
  induction reqs as [|[c tr] rest IH]; intros self after H.
  - simpl in H. injection H as <-. now split.
  - apply accept_all_cons in H. destruct H as [_ H].
    apply IH in H. rewrite check_fst in H. exact H.
Qed.


(** The day window after a series of accepted requests whose timestamps
    are all within 86400 seconds of [hi]. *)
Lemma accept_all_day (hi : Q) :
  forall (reqs : list (Q * Q)) (self after : t) (front acc : deque),
    accept_all reqs self = Some after ->
    Forall (fun r => fst r <= hi) reqs ->
    requests_day self = front ++ acc ->
    Forall (fun x => hi - x <= 86400) acc ->
    Forall (fun x => hi - x <= 86400) (recorded reqs) ->
    exists front', requests_day after = front' ++ acc ++ recorded reqs.
Proof.
  induction reqs as [|[c tr] rest IH];
    intros self after front acc Hacc Hclock Hwin Hfresh Hrec.
  - simpl in Hacc. injection Hacc as <-. exists front.
    unfold recorded. simpl. now rewrite app_nil_r.
  - apply accept_all_cons in Hacc. destruct Hacc as [Hpass Hrest].
    inversion Hclock as [|? ? Hc Hclock']; subst. simpl in Hc.
    unfold recorded in Hrec. simpl in Hrec.
    inversion Hrec as [|? ? Ht Hrec']; subst.
    destruct (IH (record_request tr (fst (check c self))) after
                 (clean c 86400 front) (acc ++ [tr]) Hrest Hclock') as (front' & Heq).
    + rewrite check_fst. simpl. unfold append.
      rewrite Hwin, (clean_keeps c hi 86400 front acc representable_86400 Hc Hfresh).
      now rewrite app_assoc.
    + apply Forall_app. split; [exact Hfresh|]. now constructor.
    + exact Hrec'.
    + exists front'. rewrite Heq. unfold recorded. simpl.
      now rewrite <- app_assoc.
Qed.





(** C3. For every daily limit d: after d requests accepted and recorded
    whose timestamps are all within 86400 seconds of the next [check],
    that check answers limited, whatever the minute window holds (and
    whatever the per-minute limit is); when the minute window is below
    its limit the answer carries the per-day message. *)
Theorem daily_limit_window
  (self after : t) (reqs : list (Q * Q)) (lo now : Q) :
  clock_until lo reqs now ->
  accept_all reqs self = Some after ->
  Z.of_nat (List.length reqs) = daily_limit self ->
  Forall (fun x => now - x <= 86400) (recorded reqs) ->
  fst (snd (check now after)) = true /\
  (forall (rpm : Z) (minute : deque),
      fst (snd (check now (mk rpm (daily_limit after) minute
                              (requests_day after)))) = true) /\
  ((Z.of_nat (List.length (clean now 60 (requests_minute after)))
    < rpm_limit after)%Z ->
   snd (check now after) = (true, MSG_DAY)).
Proof.
  intros Hclock Hacc Hd Hspan.
  destruct (accept_all_limits reqs self after Hacc) as [_ Hdaily].
  destruct (clock_until_bounds reqs lo now Hclock) as [_ Hle].
  destruct (accept_all_day now reqs self after (requests_day self) []
              Hacc Hle) as (front & Heq).
  { now rewrite app_nil_r. }
  { constructor. }
  { exact Hspan. }
  simpl in Heq.
  assert (Hfull : (daily_limit after
                   <= Z.of_nat (List.length
                                  (clean now 86400 (requests_day after))))%Z).
  { rewrite Heq, (clean_keeps now now 86400 front (recorded reqs)
                    representable_86400 (Qle_refl now) Hspan).
    rewrite Hdaily, <- Hd, length_app. unfold recorded.
    rewrite length_map. lia. }
  assert (Hany : forall s : t,
             daily_limit s = daily_limit after ->
             requests_day s = requests_day after ->
             fst (snd (check now s)) = true).
  { intros s Hl Hw. unfold check. rewrite Hl, Hw.
    destruct (rpm_limit s <=? _)%Z; [reflexivity|].
    destruct (Z.leb_spec (daily_limit after)
                (Z.of_nat (List.length (clean now 86400 (requests_day after)))));
      [reflexivity|lia]. }
  split; [now apply Hany|]. split.
  - intros rpm minute. now apply Hany.
  - intros Hm. now apply check_snd_day.
Qed.

Lemma daily_limit_window_witness :
  clock_until 0 [(0, 1); (2, 3)] 4000 /\
  accept_all [(0, 1); (2, 3)] (init 5 2) = Some (mk 5 2 [1; 3] [1; 3]) /\
  fst (snd (check 4000 (mk 5 2 [1; 3] [1; 3]))) = true /\
  snd (check 4000 (mk 5 2 [1; 3] [1; 3])) = (true, MSG_DAY).
Proof.
  assert (Hclock : clock_until 0 [(0, 1); (2, 3)] 4000)
    by (simpl; repeat split; unfold Qle; simpl; lia).
  assert (Hacc : accept_all [(0, 1); (2, 3)] (init 5 2)
                 = Some (mk 5 2 [1; 3] [1; 3]))
    by reflexivity.
  assert (Hspan : Forall (fun x => 4000 - x <= 86400)
                     (recorded [(0, 1); (2, 3)]))
    by (repeat constructor; unfold Qle; simpl; lia).
  split; [exact Hclock|]. split; [exact Hacc|].
  pose proof (daily_limit_window (init 5 2) (mk 5 2 [1; 3] [1; 3])
                [(0, 1); (2, 3)] 0 4000 Hclock Hacc eq_refl Hspan) as H.
  split; [exact (proj1 H)|].
  apply (proj2 (proj2 H)). reflexivity.
Defined.

(** ** C4: failures of the text-generation call *)

Lemma append_not_empty (a b : string) :
  a <> ""%string -> (a ++ b)%string <> ""%string.
Proof.
  destruct a as [|ch a]; [congruence|]. simpl. discriminate.
Qed.

(** C4, as the code has it.  A response with no candidates gives the
    fixed reply [MSG_BLOCKED], word for word, which is not empty.  A
    raised error, from the call or from reading [response.text], gives
    the fixed apology [MSG_ERROR] followed by the text of the error, so
    this reply changes with the error; it is not empty either.  In no
    case does the helper raise. *)
Theorem ask_gemini_maps_failures (candidate : Type) :
  (forall r : response candidate,
      candidates r = [] -> ask_gemini (Ok r) = Ok MSG_BLOCKED) /\
  MSG_BLOCKED <> ""%string /\
  (forall e : exn,
      @ask_gemini candidate (Raise e) = Ok (MSG_ERROR ++ exn_str e)%string) /\
  (forall (r : response candidate) (e : exn),
      candidates r <> [] -> text r = Raise e ->
      ask_gemini (Ok r) = Ok (MSG_ERROR ++ exn_str e)%string) /\
  (forall e : exn, (MSG_ERROR ++ exn_str e)%string <> ""%string) /\
  (forall (generated : res (response candidate)) (e : exn),
      ask_gemini generated <> Raise e).
Proof.
  repeat split.
  - intros r Hr. unfold ask_gemini. simpl. now rewrite Hr.
  - discriminate.
  - intros r e Hne Ht. unfold ask_gemini. simpl.
    destruct (candidates r); [congruence|]. now rewrite Ht.
  - intros e. apply append_not_empty. discriminate.
  - intros generated e. unfold ask_gemini.
    destruct generated as [r| |]; simpl; try discriminate.
    destruct (candidates r); simpl; [discriminate|].
    destruct (text r); discriminate.
Qed.

(** The reply to a raised error is not one fixed string: two errors
    with different texts give different replies. *)
Lemma ask_gemini_error_reply_varies :
  @ask_gemini unit (Raise (Exception "timed out"))
  = Ok (MSG_ERROR ++ "timed out")%string /\
  @ask_gemini unit (Raise (Exception "quota exceeded"))
  = Ok (MSG_ERROR ++ "quota exceeded")%string /\
  String.eqb (MSG_ERROR ++ "timed out") (MSG_ERROR ++ "quota exceeded") = false.
Proof. repeat split. Qed.

(** ** C5 and C10: the dice notation *)

Section DiceMatch.

Variable unicode_decimal : N -> option N.

Lemma take_digits_sound (s : str) :
  s = fst (take_digits unicode_decimal s) ++ snd (take_digits unicode_decimal s) /\
  Forall (is_digit unicode_decimal) (fst (take_digits unicode_decimal s)) /\
  stops unicode_decimal (snd (take_digits unicode_decimal s)).
Proof.
  induction s as [|c tl IH]; simpl.
  - repeat split. constructor.
  - destruct (unicode_decimal c) as [v|] eqn:Hc.
    + destruct (take_digits unicode_decimal tl) as [g rest]. simpl in *.
      destruct IH as (Heq & Hg & Hstop).
      repeat split.
      * now rewrite Heq at 1.
      * constructor; [unfold is_digit; congruence|exact Hg].
      * exact Hstop.
    + simpl. repeat split; [constructor|exact Hc].
Qed.

Lemma take_digits_complete (g rest : str) :
  Forall (is_digit unicode_decimal) g -> stops unicode_decimal rest ->
  take_digits unicode_decimal (g ++ rest) = (g, rest).
Proof.
  intros Hg Hstop. induction Hg as [|c g Hc Hg IH]; simpl.
  - destruct rest as [|c rest]; [reflexivity|].
    simpl in Hstop. cbn. now rewrite Hstop.
  - unfold is_digit in Hc.
    destruct (unicode_decimal c); [|congruence]. now rewrite IH.
Qed.

Lemma fullmatch_dice_sound (s g1 g2 : str) :
  fullmatch_dice unicode_decimal s = Some (g1, g2) -> dice_notation unicode_decimal s g1 g2.
Proof.
  unfold fullmatch_dice.
  destruct (take_digits_sound s) as (Heq & Hg1 & _).
  destruct (take_digits unicode_decimal s) as [[|d1 h1] [|c rest]];
    try discriminate.
  simpl in Heq, Hg1.
  destruct (N.eqb_spec c 100); [subst c|discriminate].
  destruct (take_digits_sound rest) as (Heq2 & Hg2 & _).
  destruct (take_digits unicode_decimal rest) as [[|d2 h2] [|c2 rest2]];
    try discriminate.
  simpl in Heq2, Hg2. rewrite app_nil_r in Heq2.
  intros H. injection H as <- <-.
  unfold dice_notation. repeat split; try assumption; try discriminate.
  rewrite Heq. simpl. now rewrite <- Heq2.
Qed.

(** The letter d is not a decimal digit, so the greedy run of digits
    stops in front of it and the match needs no backtracking. *)
Hypothesis letter_d : unicode_decimal 100 = None.

Lemma fullmatch_dice_complete (s g1 g2 : str) :
  dice_notation unicode_decimal s g1 g2 -> fullmatch_dice unicode_decimal s = Some (g1, g2).
Proof.
  intros (-> & Hn1 & Hn2 & Hg1 & Hg2).
  unfold fullmatch_dice.
  rewrite (take_digits_complete g1 ([100%N] ++ g2) Hg1 letter_d).
  destruct g1 as [|d1 h1]; [congruence|]. simpl.
  rewrite <- (app_nil_r g2) at 1.
  rewrite (take_digits_complete g2 [] Hg2 I).
  destruct g2 as [|d2 h2]; [congruence|]. reflexivity.
Qed.

End DiceMatch.

Lemma take_digits_ext (f g : N -> option N) (s : str) :
  agree f g s -> take_digits f s = take_digits g s.
Proof.
  induction 1 as [|c tl Hc Htl IH]; simpl; [reflexivity|].
  now rewrite Hc, IH.
Qed.

Lemma decimal_value_ext (f g : N -> option N) (s : str) :
  agree f g s -> decimal_value f s = decimal_value g s.
Proof.
  intros Hs. unfold decimal_value. generalize 0%Z.
  induction Hs as [|c tl Hc Htl IH]; intros acc; simpl; [reflexivity|].
  now rewrite Hc, IH.
Qed.

Lemma int_ext (f g : N -> option N) (limit : N) (s : str) :
  agree f g s -> int f limit s = int g limit s.
Proof.
  intros Hs. unfold int. now rewrite (decimal_value_ext f g s Hs).
Qed.

Lemma fullmatch_dice_ext (f g : N -> option N) (s : str) :
  agree f g s -> fullmatch_dice f s = fullmatch_dice g s.
Proof.
  intros Hs. unfold fullmatch_dice.
  rewrite (take_digits_ext f g s Hs).
  destruct (take_digits_sound g s) as (Heq & _ & _).
  destruct (take_digits g s) as [[|d1 h1] [|c rest]]; try reflexivity.
  simpl in Heq. destruct (c =? 100)%N; [|reflexivity].
  assert (Hrest : agree f g rest).
  { unfold agree in *. rewrite Heq in Hs.
    change (d1 :: h1 ++ c :: rest) with ((d1 :: h1) ++ [c] ++ rest) in Hs.
    apply Forall_app in Hs. destruct Hs as [_ Hs].
    apply Forall_app in Hs. now destruct Hs. }
  now rewrite (take_digits_ext f g rest Hrest).
Qed.

Lemma diceroll_ext
  (f g : N -> option N) (lower_f lower_g : str -> str) (limit : N)
  (dice : str) (t_check t_record : Q) (limiter : t) :
  lower_f dice = lower_g dice ->
  agree f g (lower_g dice) ->
  diceroll f lower_f limit dice t_check t_record limiter
  = diceroll g lower_g limit dice t_check t_record limiter.
Proof.
  intros Hlow Hs. unfold diceroll.
  rewrite Hlow, (fullmatch_dice_ext f g _ Hs).
  destruct (fullmatch_dice g (lower_g dice)) as [[g1 g2]|] eqn:Hm;
    [|reflexivity].
  apply fullmatch_dice_sound in Hm. destruct Hm as (Heq & _).
  unfold agree in Hs. rewrite Heq in Hs.
  apply Forall_app in Hs. destruct Hs as [H1 Hs].
  apply Forall_app in Hs. destruct Hs as [_ H2].
  now rewrite (int_ext f g limit g1 H1), (int_ext f g limit g2 H2).
Qed.

(** [int] converts a group of digits that fits the limit and raises
    [ValueError] for one that does not. *)
Lemma int_fits (unicode_decimal : N -> option N) (limit : N) (g : str) :
  fits limit g -> int unicode_decimal limit g = Ok (decimal_value unicode_decimal g).
Proof.
  intros [-> | H]; unfold int; [reflexivity|].
  destruct (N.ltb_spec limit (N.of_nat (List.length g))); [lia|].
  now rewrite andb_false_r.
Qed.

Lemma int_raises (unicode_decimal : N -> option N) (limit : N) (g : str) :
  ~ fits limit g ->
  int unicode_decimal limit g
  = Raise (ValueError (MSG_DIGITS limit (N.of_nat (List.length g)))).
Proof.
  intros H. unfold int, fits in *.
  destruct (N.ltb_spec 0 limit);
    destruct (N.ltb_spec limit (N.of_nat (List.length g)));
    simpl; try reflexivity; exfalso; apply H; lia.
Qed.

Lemma fits_dec (limit : N) (g : str) : fits limit g \/ ~ fits limit g.
Proof.
  unfold fits. destruct (N.eq_dec limit 0) as [E|E]; [now left; left|].
  destruct (N.le_gt_cases (N.of_nat (List.length g)) limit) as [L|G].
  - left. now right.
  - right. intros [H|H]; lia.
Qed.

Lemma int_cases (unicode_decimal : N -> option N) (limit : N) (g : str) :
  (fits limit g /\
   int unicode_decimal limit g = Ok (decimal_value unicode_decimal g)) \/
  (~ fits limit g /\
   int unicode_decimal limit g
   = Raise (ValueError (MSG_DIGITS limit (N.of_nat (List.length g))))).
Proof.
  destruct (fits_dec limit g) as [F|F]; [left|right]; split; try assumption.
  - now apply int_fits.
  - now apply int_raises.
Qed.

(** Under a limit the runtime accepts, an input that lower-cases to at
    most 640 code points is handled as without a limit. *)
Lemma diceroll_short
  (unicode_decimal : N -> option N) (str_lower : str -> str) (limit : N)
  (dice : str) (t_check t_record : Q) (limiter : t) :
  digit_limit limit ->
  (N.of_nat (List.length (str_lower dice)) <= 640)%N ->
  diceroll unicode_decimal str_lower limit dice t_check t_record limiter
  = diceroll unicode_decimal str_lower 0 dice t_check t_record limiter.
Proof.
  intros Hl Hlen. unfold diceroll.
  destruct (fullmatch_dice unicode_decimal (str_lower dice))
    as [[g1 g2]|] eqn:Hm; [|reflexivity].
  apply fullmatch_dice_sound in Hm. destruct Hm as (Heq & _).
  rewrite Heq, !length_app in Hlen.
  assert (F1 : fits limit g1) by (destruct Hl; [now left|right; lia]).
  assert (F2 : fits limit g2) by (destruct Hl; [now left|right; lia]).
  rewrite (int_fits unicode_decimal limit g1 F1).
  rewrite (int_fits unicode_decimal limit g2 F2).
  rewrite (int_fits unicode_decimal 0 g1 (or_introl eq_refl)).
  rewrite (int_fits unicode_decimal 0 g2 (or_introl eq_refl)).
  reflexivity.
Qed.

Lemma ascii_lower_ascii (c : N) : (c < 128)%N -> (ascii_lower c < 128)%N.
Proof.
  intros Hc. unfold ascii_lower.
  destruct (N.leb_spec 65 c), (N.leb_spec c 90); simpl; lia.
Qed.

Lemma ascii_upper_ascii (c : N) : (c < 128)%N -> (ascii_upper c < 128)%N.
Proof.
  intros Hc. unfold ascii_upper.
  destruct (N.leb_spec 97 c), (N.leb_spec c 122); simpl; lia.
Qed.

Lemma ascii_lower_upper (c : N) : ascii_lower (ascii_upper c) = ascii_lower c.
Proof.
  unfold ascii_lower, ascii_upper.
  destruct (N.leb_spec 97 c), (N.leb_spec c 122); simpl;
    repeat match goal with
           | |- context [(?a <=? ?b)%N] => destruct (N.leb_spec a b)
           end; simpl; lia.
Qed.

Lemma ascii_decimal_range (c : N) :
  ascii_decimal c <> None -> (48 <= c <= 57)%N.
Proof.
  unfold ascii_decimal.
  destruct (N.leb_spec 48 c), (N.leb_spec c 57); simpl; try congruence. lia.
Qed.

Lemma is_ascii_repeat (c : N) (k : nat) : (c < 128)%N -> is_ascii (repeat c k).
Proof.
  intros Hc. apply Forall_forall. intros x Hx.
  apply repeat_spec in Hx. now subst.
Qed.

Lemma guarded_roll_checks (n m : Z) (t_check t_record : Q) (limiter : t) :
  hd_error (snd (guarded_roll n m t_check t_record limiter))
  = Some LimiterCheck.
Proof.
  unfold guarded_roll. destruct (check t_check limiter) as [l1 r].
  destruct (fst r); reflexivity.
Qed.

Lemma in_range_test (n m : Z) :
  (((1 <=? n) && (n <=? 100)) && ((2 <=? m) && (m <=? 1000)))%Z = true
  <-> in_range n m.
Proof.
  unfold in_range. rewrite !andb_true_iff, !Z.leb_le. tauto.
Qed.

Lemma in_range_dec (n m : Z) : in_range n m \/ ~ in_range n m.
Proof.
  destruct (((1 <=? n) && (n <=? 100)) && ((2 <=? m) && (m <=? 1000)))%Z
    eqn:Ht.
  - left. now apply in_range_test.
  - right. intros Hr. apply in_range_test in Hr. congruence.
Qed.

Section DiceFacts.

Variable unicode_decimal : N -> option N.
Variable str_lower : str -> str.
Variable int_max_str_digits : N.

(** What the handler relies on from the Unicode tables: among the ASCII
    code points the decimal digits are '0' to '9', with their values;
    and lower-casing a string of ASCII code points and decimal digits
    changes 'A' to 'Z' only.  And the limit on the digits of a
    conversion is one the runtime accepts. *)
Hypothesis decimal_ascii :
  forall c : N, (c < 128)%N -> unicode_decimal c = ascii_decimal c.

Hypothesis lower_plain :
  forall s : str, plain unicode_decimal s -> str_lower s = map ascii_lower s.

Hypothesis limit_accepted : digit_limit int_max_str_digits.

Lemma letter_d_stops : unicode_decimal 100 = None.
Proof. now rewrite decimal_ascii. Qed.

Lemma is_ascii_plain (s : str) : is_ascii s -> plain unicode_decimal s.
Proof.
  intros H. eapply Forall_impl; [|exact H]. intros c Hc. now left.
Qed.

Lemma diceroll_ascii (dice : str) (t_check t_record : Q) (limiter : t) :
  is_ascii dice ->
  diceroll unicode_decimal str_lower int_max_str_digits dice
    t_check t_record limiter
  = diceroll ascii_decimal (map ascii_lower) int_max_str_digits dice
      t_check t_record limiter.
Proof.
  intros Hd. apply diceroll_ext.
  - apply lower_plain. now apply is_ascii_plain.
  - unfold agree. apply Forall_map.
    eapply Forall_impl; [|exact Hd].
    intros c Hc. simpl in Hc. apply decimal_ascii. now apply ascii_lower_ascii.
Qed.

Lemma diceroll_matched
  (dice g1 g2 : str) (num_dice num_sides : Z)
  (t_check t_record : Q) (limiter : t) :
  dice_notation unicode_decimal (str_lower dice) g1 g2 ->
  int unicode_decimal int_max_str_digits g1 = Ok num_dice ->
  int unicode_decimal int_max_str_digits g2 = Ok num_sides ->
  (in_range num_dice num_sides ->
   diceroll unicode_decimal str_lower int_max_str_digits dice
     t_check t_record limiter
   = guarded_roll num_dice num_sides t_check t_record limiter) /\
  (~ in_range num_dice num_sides ->
   diceroll unicode_decimal str_lower int_max_str_digits dice
     t_check t_record limiter
   = (limiter, [Respond MSG_RANGE])).
Proof.
  intros Hn H1 H2. unfold diceroll.
  rewrite (fullmatch_dice_complete unicode_decimal letter_d_stops _ _ _ Hn).
  rewrite H1, H2. cbn [bind].
  destruct (((1 <=? num_dice) && (num_dice <=? 100))
            && ((2 <=? num_sides) && (num_sides <=? 1000)))%Z eqn:Ht; simpl.
  - apply in_range_test in Ht. split; [reflexivity|contradiction].
  - split; [|reflexivity].
    intros Hr. apply in_range_test in Hr. congruence.
Qed.

(** What [int] raises leaves the handler: no reply, and the limiter as
    it was. *)
Lemma diceroll_raised
  (dice g1 g2 : str) (e : exn) (t_check t_record : Q) (limiter : t) :
  dice_notation unicode_decimal (str_lower dice) g1 g2 ->
  int unicode_decimal int_max_str_digits g1 = Raise e \/
  ((exists num_dice : Z,
       int unicode_decimal int_max_str_digits g1 = Ok num_dice) /\
   int unicode_decimal int_max_str_digits g2 = Raise e) ->
  diceroll unicode_decimal str_lower int_max_str_digits dice
    t_check t_record limiter
  = (limiter, [Raised e]).
Proof.
  intros Hn H. unfold diceroll.
  rewrite (fullmatch_dice_complete unicode_decimal letter_d_stops _ _ _ Hn).
  destruct H as [H1 | [[n H1] H2]].
  - now rewrite H1.
  - now rewrite H1, H2.
Qed.

Lemma diceroll_unmatched
  (dice : str) (t_check t_record : Q) (limiter : t) :
  (forall g1 g2, ~ dice_notation unicode_decimal (str_lower dice) g1 g2) ->
  diceroll unicode_decimal str_lower int_max_str_digits dice
    t_check t_record limiter
  = (limiter, [Respond MSG_FORMAT]).
Proof.
  intros Hn. unfold diceroll.
  destruct (fullmatch_dice unicode_decimal (str_lower dice))
    as [[g1 g2]|] eqn:Hm; [|reflexivity].
  apply fullmatch_dice_sound in Hm. now apply Hn in Hm.
Qed.

(** The ways the handler can go, by its input. *)
Lemma diceroll_outcome
  (dice : str) (t_check t_record : Q) (limiter : t) :
  (valid_dice unicode_decimal str_lower int_max_str_digits dice /\
   hd_error (snd (diceroll unicode_decimal str_lower int_max_str_digits dice
                    t_check t_record limiter))
   = Some LimiterCheck) \/
  (~ valid_dice unicode_decimal str_lower int_max_str_digits dice /\
   ((exists msg : string,
        (msg = MSG_FORMAT \/ msg = MSG_RANGE) /\
        diceroll unicode_decimal str_lower int_max_str_digits dice
          t_check t_record limiter
        = (limiter, [Respond msg])) \/
    (exists digits : N,
        (0 < int_max_str_digits < digits)%N /\
        diceroll unicode_decimal str_lower int_max_str_digits dice
          t_check t_record limiter
        = (limiter,
           [Raised (ValueError (MSG_DIGITS int_max_str_digits digits))])))).
Proof.
  destruct (fullmatch_dice unicode_decimal (str_lower dice))
    as [[g1 g2]|] eqn:Hm.
  - apply fullmatch_dice_sound in Hm.
    assert (Hg : forall h1 h2,
               dice_notation unicode_decimal (str_lower dice) h1 h2 ->
               h1 = g1 /\ h2 = g2).
    { intros h1 h2 Hh.
      apply (fullmatch_dice_complete unicode_decimal letter_d_stops) in Hh.
      apply (fullmatch_dice_complete unicode_decimal letter_d_stops) in Hm.
      rewrite Hm in Hh. injection Hh as <- <-. now split. }
    assert (Hlong : forall g : str,
               ~ fits int_max_str_digits g ->
               (0 < int_max_str_digits < N.of_nat (List.length g))%N).
    { intros g F. unfold fits in F. lia. }
    destruct (int_cases unicode_decimal int_max_str_digits g1)
      as [[F1 E1] | [F1 E1]].
    + destruct (int_cases unicode_decimal int_max_str_digits g2)
        as [[F2 E2] | [F2 E2]].
      * destruct (diceroll_matched dice g1 g2 _ _ t_check t_record limiter
                    Hm E1 E2) as [Hin Hout].
        destruct (in_range_dec (decimal_value unicode_decimal g1)
                    (decimal_value unicode_decimal g2)) as [Hr | Hr].
        -- left. split.
           ++ exists g1, g2, (decimal_value unicode_decimal g1),
                (decimal_value unicode_decimal g2). auto.
           ++ rewrite (Hin Hr). apply guarded_roll_checks.
        -- right. split.
           ++ intros (h1 & h2 & n & m & Hh & Hn1 & Hn2 & Hnm).
              destruct (Hg h1 h2 Hh) as [-> ->].
              rewrite E1 in Hn1. rewrite E2 in Hn2.
              injection Hn1 as <-. injection Hn2 as <-. contradiction.
           ++ left. exists MSG_RANGE. split; [now right|]. now apply Hout.
      * right. split.
        -- intros (h1 & h2 & n & m & Hh & Hn1 & Hn2 & Hnm).
           destruct (Hg h1 h2 Hh) as [-> ->]. congruence.
        -- right. exists (N.of_nat (List.length g2)).
           split; [now apply Hlong|].
           apply (diceroll_raised dice g1 g2); [exact Hm|].
           right. split; [now exists (decimal_value unicode_decimal g1)|].
           exact E2.
    + right. split.
      * intros (h1 & h2 & n & m & Hh & Hn1 & Hn2 & Hnm).
        destruct (Hg h1 h2 Hh) as [-> ->]. congruence.
      * right. exists (N.of_nat (List.length g1)).
        split; [now apply Hlong|].
        apply (diceroll_raised dice g1 g2); [exact Hm|]. now left.
  - right. split.
    + intros (h1 & h2 & n & m & Hh & _).
      apply (fullmatch_dice_complete unicode_decimal letter_d_stops) in Hh.
      congruence.
    + left. exists MSG_FORMAT. split; [now left|].
      unfold diceroll. now rewrite Hm.
Qed.

Ltac by_ascii_tables :=
  rewrite diceroll_ascii;
  [ rewrite diceroll_short;
    [ reflexivity | exact limit_accepted | vm_compute; discriminate ]
  | unfold is_ascii, str_of_string; simpl; repeat constructor ].

(** C5, as the code has it.  The inputs "2d6" and "1d20" pass the
    validation and go on to the limiter guard.  The inputs "0d6",
    "101d6", "2d1", "2d1001", "abc" and "2xd6" are each answered with a
    validation message and nothing else: the limiter is neither checked
    nor changed.  In general, when the input, lower-cased, is digits,
    the letter d, digits, and [int] converts both numbers, the input
    passes exactly when the dice count is in 1..100 and the number of
    sides in 2..1000, and a number out of range is answered with the
    range message; a wrong shape is answered with the format message;
    both before any call on the limiter.  But a number with more digits
    than the limit of the runtime makes [int] raise [ValueError], which
    the handler does not catch: such an input is neither accepted nor
    answered, whatever its value; the limiter is not called then
    either.  Under the limit of 4300 digits this is what 4300 zeros in
    front of "2d6" do, and 4301 nines in front of "d6". *)
Theorem diceroll_validation (t_check t_record : Q) (limiter : t) :
  let roll := fun dice =>
    diceroll unicode_decimal str_lower int_max_str_digits dice
      t_check t_record limiter in
  let int := int unicode_decimal int_max_str_digits in
  (roll (str_of_string "2d6") = guarded_roll 2 6 t_check t_record limiter /\
   roll (str_of_string "1d20") = guarded_roll 1 20 t_check t_record limiter) /\
  (roll (str_of_string "0d6") = (limiter, [Respond MSG_RANGE]) /\
   roll (str_of_string "101d6") = (limiter, [Respond MSG_RANGE]) /\
   roll (str_of_string "2d1") = (limiter, [Respond MSG_RANGE]) /\
   roll (str_of_string "2d1001") = (limiter, [Respond MSG_RANGE]) /\
   roll (str_of_string "abc") = (limiter, [Respond MSG_FORMAT]) /\
   roll (str_of_string "2xd6") = (limiter, [Respond MSG_FORMAT])) /\
  (forall dice : str,
      (forall (g1 g2 : str) (num_dice num_sides : Z),
          dice_notation unicode_decimal (str_lower dice) g1 g2 ->
          int g1 = Ok num_dice -> int g2 = Ok num_sides ->
          in_range num_dice num_sides ->
          roll dice = guarded_roll num_dice num_sides t_check t_record limiter) /\
      (forall (g1 g2 : str) (num_dice num_sides : Z),
          dice_notation unicode_decimal (str_lower dice) g1 g2 ->
          int g1 = Ok num_dice -> int g2 = Ok num_sides ->
          ~ in_range num_dice num_sides ->
          roll dice = (limiter, [Respond MSG_RANGE])) /\
      (forall (g1 g2 : str) (e : exn),
          dice_notation unicode_decimal (str_lower dice) g1 g2 ->
          int g1 = Raise e \/
          ((exists num_dice : Z, int g1 = Ok num_dice) /\ int g2 = Raise e) ->
          roll dice = (limiter, [Raised e])) /\
      ((forall g1 g2 : str,
           ~ dice_notation unicode_decimal (str_lower dice) g1 g2) ->
       roll dice = (limiter, [Respond MSG_FORMAT])) /\
      (valid_dice unicode_decimal str_lower int_max_str_digits dice <->
       hd_error (snd (roll dice)) = Some LimiterCheck) /\
      (~ valid_dice unicode_decimal str_lower int_max_str_digits dice ->
       (exists msg : string,
           (msg = MSG_FORMAT \/ msg = MSG_RANGE) /\
           roll dice = (limiter, [Respond msg])) \/
       (exists digits : N,
           (0 < int_max_str_digits < digits)%N /\
           roll dice
           = (limiter,
              [Raised (ValueError (MSG_DIGITS int_max_str_digits digits))])))) /\
  (forall g : str,
      (fits int_max_str_digits g ->
       int g = Ok (decimal_value unicode_decimal g)) /\
      (~ fits int_max_str_digits g ->
       int g = Raise (ValueError (MSG_DIGITS int_max_str_digits
                                    (N.of_nat (List.length g)))))) /\
  (int_max_str_digits = 4300%N ->
   roll (repeat 48%N 4300 ++ str_of_string "2d6")
   = (limiter, [Raised (ValueError (MSG_DIGITS 4300 4301))]) /\
   roll (repeat 57%N 4301 ++ str_of_string "d6")
   = (limiter, [Raised (ValueError (MSG_DIGITS 4300 4301))])).
Proof.
  cbv zeta. split; [|split; [|split; [|split]]].
  - split; by_ascii_tables.
  - repeat split; by_ascii_tables.
  - intros dice. split; [|split; [|split; [|split; [|split]]]].
    + intros g1 g2 n m Hn H1 H2.
      now apply (diceroll_matched dice g1 g2 n m).
    + intros g1 g2 n m Hn H1 H2.
      now apply (diceroll_matched dice g1 g2 n m).
    + intros g1 g2 e. apply diceroll_raised.
    + apply diceroll_unmatched.
    + destruct (diceroll_outcome dice t_check t_record limiter)
        as [[Hv Hhd] | [Hv [(msg & _ & Heq) | (digits & _ & Heq)]]].
      * now split.
      * rewrite Heq. split; [contradiction|discriminate].
      * rewrite Heq. split; [contradiction|discriminate].
    + intros Hinv.
      destruct (diceroll_outcome dice t_check t_record limiter)
        as [[Hv _] | [_ H]]; [contradiction|exact H].
  - intros g. split; [apply int_fits|apply int_raises].
  - intros Hlimit.
    split; (rewrite diceroll_ascii;
            [ rewrite Hlimit; vm_compute; reflexivity
            | apply Forall_app; split;
              [ now apply is_ascii_repeat
              | unfold str_of_string; simpl; repeat constructor ] ]).
Qed.

(** The handler reads its input only through [dice.lower()]. *)
Lemma diceroll_lower
  (dice dice' : str) (t_check t_record : Q) (limiter : t) :
  str_lower dice = str_lower dice' ->
  diceroll unicode_decimal str_lower int_max_str_digits dice
    t_check t_record limiter
  = diceroll unicode_decimal str_lower int_max_str_digits dice'
      t_check t_record limiter.
Proof.
  intros H. unfold diceroll. now rewrite H.
Qed.

Lemma digit_not_letter (c : N) :
  is_digit unicode_decimal c -> ascii_lower c = c /\ ascii_upper c = c.
Proof.
  intros Hd. unfold is_digit in Hd.
  destruct (N.ltb_spec c 128) as [Hlt|Hge].
  - rewrite (decimal_ascii c Hlt) in Hd.
    apply ascii_decimal_range in Hd.
    unfold ascii_lower, ascii_upper.
    destruct (N.leb_spec 65 c), (N.leb_spec c 90),
             (N.leb_spec 97 c), (N.leb_spec c 122); simpl; split; lia.
  - unfold ascii_lower, ascii_upper.
    destruct (N.leb_spec 65 c), (N.leb_spec c 90),
             (N.leb_spec 97 c), (N.leb_spec c 122); simpl; split; lia.
Qed.

Lemma digits_lower (g : str) :
  Forall (is_digit unicode_decimal) g -> map ascii_lower g = g.
Proof.
  induction 1 as [|c g Hc Hg IH]; simpl; [reflexivity|].
  now rewrite (proj1 (digit_not_letter c Hc)), IH.
Qed.

Lemma digits_plain (g : str) :
  Forall (is_digit unicode_decimal) g -> plain unicode_decimal g.
Proof.
  intros H. eapply Forall_impl; [|exact H]. intros c Hc. now right.
Qed.

(** Lower-casing digits, a letter d of either case, digits. *)
Lemma lower_notation (g1 g2 : str) (sep : N) :
  Forall (is_digit unicode_decimal) g1 ->
  Forall (is_digit unicode_decimal) g2 ->
  sep = 68%N \/ sep = 100%N ->
  str_lower (g1 ++ [sep] ++ g2) = g1 ++ [100%N] ++ g2.
Proof.
  intros H1 H2 Hsep.
  rewrite lower_plain.
  - rewrite !map_app, (digits_lower g1 H1), (digits_lower g2 H2).
    destruct Hsep as [-> | ->]; reflexivity.
  - apply Forall_app. split; [now apply digits_plain|].
    apply Forall_app. split; [|now apply digits_plain].
    constructor; [|constructor]. left. destruct Hsep as [-> | ->]; reflexivity.
Qed.

Lemma upper_plain (dice : str) :
  plain unicode_decimal dice -> plain unicode_decimal (map ascii_upper dice).
Proof.
  intros H. apply Forall_map. eapply Forall_impl; [|exact H].
  intros c [Hc|Hc]; simpl.
  - left. now apply ascii_upper_ascii.
  - right. now rewrite (proj2 (digit_not_letter c Hc)).
Qed.

(** C10. The separator is matched in either case, because the input is
    lower-cased before the match: digits, D, digits is handled as
    digits, d, digits, and when that is a valid notation (the two
    numbers are converted, to counts in range) both are accepted with
    the same dice count and number of sides; so "2D6" is accepted as
    "2d6" is, as 2 dice of 6 sides.  More generally an input of ASCII
    code points and digits is handled as its upper-case form is. *)
Theorem diceroll_case_insensitive (t_check t_record : Q) (limiter : t) :
  let roll := fun dice =>
    diceroll unicode_decimal str_lower int_max_str_digits dice
      t_check t_record limiter in
  let int := int unicode_decimal int_max_str_digits in
  (forall g1 g2 : str,
      Forall (is_digit unicode_decimal) g1 ->
      Forall (is_digit unicode_decimal) g2 ->
      roll (g1 ++ [68%N] ++ g2) = roll (g1 ++ [100%N] ++ g2)) /\
  (forall (g1 g2 : str) (num_dice num_sides : Z),
      g1 <> [] -> g2 <> [] ->
      Forall (is_digit unicode_decimal) g1 ->
      Forall (is_digit unicode_decimal) g2 ->
      int g1 = Ok num_dice -> int g2 = Ok num_sides ->
      in_range num_dice num_sides ->
      roll (g1 ++ [100%N] ++ g2)
      = guarded_roll num_dice num_sides t_check t_record limiter /\
      roll (g1 ++ [68%N] ++ g2)
      = guarded_roll num_dice num_sides t_check t_record limiter) /\
  (roll (str_of_string "2d6") = guarded_roll 2 6 t_check t_record limiter /\
   roll (str_of_string "2D6") = guarded_roll 2 6 t_check t_record limiter) /\
  (forall dice : str,
      plain unicode_decimal dice -> roll (map ascii_upper dice) = roll dice).
Proof.
  cbv zeta. split; [|split; [|split]].
  - intros g1 g2 H1 H2. apply diceroll_lower.
    rewrite !lower_notation by auto. reflexivity.
  - intros g1 g2 n m Hn1 Hn2 H1 H2 Hi1 Hi2 Hr.
    assert (Hd : dice_notation unicode_decimal
                   (str_lower (g1 ++ [100%N] ++ g2)) g1 g2).
    { rewrite lower_notation by auto. unfold dice_notation. auto. }
    assert (HD : dice_notation unicode_decimal
                   (str_lower (g1 ++ [68%N] ++ g2)) g1 g2).
    { rewrite lower_notation by auto. unfold dice_notation. auto. }
    split.
    + now apply (diceroll_matched _ g1 g2 n m).
    + now apply (diceroll_matched _ g1 g2 n m).
  - split; by_ascii_tables.
  - intros dice Hp. apply diceroll_lower.
    rewrite (lower_plain _ (upper_plain dice Hp)), (lower_plain _ Hp).
    rewrite map_map. apply map_ext. apply ascii_lower_upper.
Qed.

End DiceFacts.

(** The ASCII tables are tables the hypotheses hold of, and the limit
    of 4300 digits is one the runtime accepts. *)
Lemma ascii_tables_decimal :
  forall c : N, (c < 128)%N -> ascii_decimal c = ascii_decimal c.
Proof. reflexivity. Defined.

Lemma ascii_tables_lower :
  forall s : str, plain ascii_decimal s -> map ascii_lower s = map ascii_lower s.
Proof. reflexivity. Defined.

Lemma default_limit_accepted : digit_limit 4300.
Proof. right. intros H. discriminate H. Defined.

Lemma diceroll_validation_witness :
  digit_limit 4300 /\
  diceroll ascii_decimal (map ascii_lower) 4300 (str_of_string "2d6")
    1 2 (init 10 499)
  = guarded_roll 2 6 1 2 (init 10 499) /\
  diceroll ascii_decimal (map ascii_lower) 4300 (str_of_string "2xd6")
    1 2 (init 10 499)
  = (init 10 499, [Respond MSG_FORMAT]) /\
  diceroll ascii_decimal (map ascii_lower) 4300
    (repeat 48%N 4300 ++ str_of_string "2d6") 1 2 (init 10 499)
  = (init 10 499, [Raised (ValueError (MSG_DIGITS 4300 4301))]).
Proof.
  pose proof (diceroll_validation ascii_decimal (map ascii_lower) 4300
                ascii_tables_decimal ascii_tables_lower default_limit_accepted
                1 2 (init 10 499)) as H.
  cbv zeta in H.
  destruct H as [[H2d6 _] [(_ & _ & _ & _ & _ & H2xd6) (_ & _ & Hlong)]].
  split; [exact default_limit_accepted|].
  split; [exact H2d6|]. split; [exact H2xd6|].
  exact (proj1 (Hlong eq_refl)).
Defined.

Lemma diceroll_case_insensitive_witness :
  digit_limit 4300 /\
  diceroll ascii_decimal (map ascii_lower) 4300 (str_of_string "2D6")
    1 2 (init 10 499)
  = guarded_roll 2 6 1 2 (init 10 499) /\
  diceroll ascii_decimal (map ascii_lower) 4300 (str_of_string "2D6")
    1 2 (init 10 499)
  = diceroll ascii_decimal (map ascii_lower) 4300 (str_of_string "2d6")
      1 2 (init 10 499).
Proof.
  pose proof (diceroll_case_insensitive ascii_decimal (map ascii_lower) 4300
                ascii_tables_decimal ascii_tables_lower default_limit_accepted
                1 2 (init 10 499)) as H.
  cbv zeta in H. destruct H as (Hsep & _ & [_ H2D6] & _).
  split; [exact default_limit_accepted|].
  split; [exact H2D6|].
  apply (Hsep [50%N] [54%N]); repeat constructor; discriminate.
Defined.

(** * Further properties *)

(** ** The rate the guard enforces *)

Lemma in_span_true (lo w x : Q) :
  in_span lo w x = true <-> lo <= x /\ x <= lo + w.
Proof.
  unfold in_span. now rewrite andb_true_iff, !Qle_bool_iff.
Qed.

Lemma count_in_span_app (lo w : Q) (l1 l2 : list Q) :
  count_in_span lo w (l1 ++ l2)
  = (count_in_span lo w l1 + count_in_span lo w l2)%nat.
Proof.
  unfold count_in_span. now rewrite filter_app, length_app.
Qed.

Lemma count_in_span_length (lo w : Q) (l : list Q) :
  (count_in_span lo w l <= List.length l)%nat.
Proof.
  unfold count_in_span. induction l as [|x l IH]; simpl; [lia|].
  destruct (in_span lo w x); simpl; lia.
Qed.

(** No entry that is older than [w] at reading [c] is in a span of [w]
    seconds that holds a reading [tr] not before [c]. *)
Lemma count_in_span_old (lo w c tr : Q) (l : list Q) :
  c <= tr -> lo <= tr -> tr <= lo + w ->
  Forall (fun x => w < c - x) l ->
  count_in_span lo w l = O.
Proof.
  intros Hc Hlo Hhi Hold. unfold count_in_span.
  induction Hold as [|x l Hx Hl IH]; simpl; [reflexivity|].
  destruct (in_span lo w x) eqn:Hin; [|exact IH].
  apply in_span_true in Hin. lra.
Qed.

(** What the test calls old at a reading it calls old at every later
    reading. *)
Lemma old_later (w hi c : Q) (l : list Q) :
  hi <= c ->
  Forall (fun x => w < float_sub hi x) l ->
  Forall (fun x => w < float_sub c x) l.
Proof.
  intros Hle Hold. eapply Forall_impl; [|exact Hold].
  intros x Hx. simpl in Hx.
  pose proof (float_sub_le hi c x x Hle (Qle_refl x)). lra.
Qed.

Lemma behind_clean (w hi c : Q) (l : list Q) (dq : deque) :
  hi <= c -> behind w hi l dq -> behind w c l (clean c w dq).
Proof.
  intros Hle (removed & Heq & Hold).
  destruct (clean_front_cleaned c w dq) as (removed' & Heq' & Hold' & _).
  exists (removed ++ removed'). split.
  - rewrite Heq, Heq' at 1. now rewrite app_assoc.
  - apply Forall_app. split; [|exact Hold'].
    now apply (old_later w hi c).
Qed.

Lemma behind_append (w hi tr : Q) (l : list Q) (dq : deque) :
  behind w hi l dq -> behind w hi (l ++ [tr]) (append dq tr).
Proof.
  intros (removed & Heq & Hold). exists removed. split; [|exact Hold].
  unfold append. now rewrite Heq, app_assoc.
Qed.

Lemma behind_later (w hi c : Q) (l : list Q) (dq : deque) :
  hi <= c -> behind w hi l dq -> behind w c l dq.
Proof.
  intros Hle (removed & Heq & Hold). exists removed. split; [exact Heq|].
  now apply (old_later w hi c).
Qed.

Lemma tracks_new (w : Q) (limit : Z) (hi : Q) : tracks w limit hi [] [].
Proof.
  split.
  - exists []. split; [reflexivity|constructor].
  - intros lo. unfold count_in_span. simpl. lia.
Qed.

(** A check at a later reading keeps the window on track. *)
Lemma tracks_clean (w : Q) (limit : Z) (hi c : Q) (l : list Q) (dq : deque) :
  hi <= c -> tracks w limit hi l dq -> tracks w limit c l (clean c w dq).
Proof.
  intros Hle [Hb Hbound]. split; [|exact Hbound].
  now apply (behind_clean w hi c).
Qed.

(** Recording a request that found the window below the limit keeps the
    window on track. *)
Lemma tracks_append
  (w : Q) (limit : Z) (c tr : Q) (l : list Q) (dq : deque) :
  representable w ->
  c <= tr ->
  (Z.of_nat (List.length dq) < limit)%Z ->
  tracks w limit c l dq ->
  tracks w limit c (l ++ [tr]) (append dq tr).
Proof.
  intros Hw Hc Hlen [(removed & Heq & Hold) Hbound]. split.
  - exists removed. split; [|exact Hold].
    unfold append. now rewrite Heq, app_assoc.
  - intros lo. rewrite count_in_span_app.
    unfold count_in_span at 2. simpl.
    destruct (in_span lo w tr) eqn:Hin; simpl.
    + apply in_span_true in Hin. destruct Hin as [Hlo Hhi].
      assert (Hold' : Forall (fun x => w < c - x) removed).
      { eapply Forall_impl; [|exact Hold].
        intros x Hx. simpl in Hx. now apply float_sub_exact. }
      rewrite Heq, count_in_span_app.
      rewrite (count_in_span_old lo w c tr removed Hc Hlo Hhi Hold').
      pose proof (count_in_span_length lo w dq). lia.
    + specialize (Hbound lo). lia.
Qed.

Lemma cycle_limits (c tr : Q) (self : t) :
  rpm_limit (fst (cycle c tr self)) = rpm_limit self /\
  daily_limit (fst (cycle c tr self)) = daily_limit self.
Proof.
  unfold cycle. pose proof (check_fst c self) as Hf.
  destruct (check c self) as [s1 r]. simpl in Hf. subst s1.
  destruct (fst r); simpl; split; reflexivity.
Qed.

(** What one guarded request does to the limiter. *)
Lemma cycle_cases (c tr : Q) (self : t) :
  (fst (snd (cycle c tr self)) = true /\
   fst (cycle c tr self) = fst (check c self)) \/
  (fst (snd (cycle c tr self)) = false /\
   fst (cycle c tr self) = record_request tr (fst (check c self)) /\
   fst (snd (check c self)) = false).
Proof.
  unfold cycle. destruct (check c self) as [s1 r]. simpl.
  destruct (fst r) eqn:Hr; simpl; rewrite Hr; [left|right]; auto.
Qed.

Lemma accepted_cons (c tr : Q) (rest : list (Q * Q)) (self : t) :
  accepted ((c, tr) :: rest) self
  = if fst (snd (cycle c tr self))
    then accepted rest (fst (cycle c tr self))
    else tr :: accepted rest (fst (cycle c tr self)).
Proof.
  simpl. now destruct (cycle c tr self) as [s1 r].
Qed.

Lemma serve_tracks :
  forall (reqs : list (Q * Q)) (self : t) (l : list Q) (hi : Q),
    guard_clock hi reqs ->
    tracks 60 (rpm_limit self) hi l (requests_minute self) ->
    tracks 86400 (daily_limit self) hi l (requests_day self) ->
    exists hi',
      tracks 60 (rpm_limit self) hi' (l ++ accepted reqs self)
        (requests_minute (serve reqs self)) /\
      tracks 86400 (daily_limit self) hi' (l ++ accepted reqs self)
        (requests_day (serve reqs self)).
Proof.
  induction reqs as [|[c tr] rest IH]; intros self l hi Hclock Hm Hd.
  - exists hi. simpl. rewrite app_nil_r. now split.
  - simpl in Hclock. destruct Hclock as (Hhi & Hct & Hrest).
    destruct (cycle_limits c tr self) as [Hrpm Hdaily].
    pose proof (tracks_clean 60 _ hi c l _ Hhi Hm) as Hm1.
    pose proof (tracks_clean 86400 _ hi c l _ Hhi Hd) as Hd1.
    rewrite accepted_cons. simpl serve.
    destruct (cycle_cases c tr self) as [[Hlim Hst] | (Hlim & Hst & Hfree)];
      rewrite Hlim.
    + destruct (IH (fst (cycle c tr self)) l c Hrest) as (hi' & Hm' & Hd').
      * rewrite Hrpm, Hst, check_fst. exact Hm1.
      * rewrite Hdaily, Hst, check_fst. exact Hd1.
      * exists hi'. now rewrite Hrpm, Hdaily in *.
    + destruct (check_not_limited c self Hfree) as [Hlm Hld].
      destruct (IH (fst (cycle c tr self)) (l ++ [tr]) c Hrest)
        as (hi' & Hm' & Hd').
      * rewrite Hrpm, Hst, check_fst. simpl.
        now apply tracks_append; [exact representable_60|..].
      * rewrite Hdaily, Hst, check_fst. simpl.
        now apply tracks_append; [exact representable_86400|..].
      * exists hi'. rewrite Hrpm, Hdaily in *.
        now rewrite <- app_assoc in Hm', Hd'.
Qed.

(** X1. Under a clock that does not go back, whatever series of guarded
    requests a new limiter serves, no span of 60 seconds holds more
    recorded (accepted) requests than the per-minute limit (none at all
    when the limit is zero or negative). *)
Theorem minute_rate_bound
  (rpm daily : Z) (reqs : list (Q * Q)) (start lo : Q) :
  guard_clock start reqs ->
  (Z.of_nat (count_in_span lo 60 (accepted reqs (init rpm daily)))
   <= Z.max 0 rpm)%Z.
Proof.
  intros Hclock.
  destruct (serve_tracks reqs (init rpm daily) [] start Hclock
              (tracks_new 60 rpm start) (tracks_new 86400 daily start))
    as (hi' & [_ Hm] & _).
  apply Hm.
Qed.

(** X2. Likewise no span of 86400 seconds holds more recorded requests
    than the daily limit. *)
Theorem daily_rate_bound
  (rpm daily : Z) (reqs : list (Q * Q)) (start lo : Q) :
  guard_clock start reqs ->
  (Z.of_nat (count_in_span lo 86400 (accepted reqs (init rpm daily)))
   <= Z.max 0 daily)%Z.
Proof.
  intros Hclock.
  destruct (serve_tracks reqs (init rpm daily) [] start Hclock
              (tracks_new 60 rpm start) (tracks_new 86400 daily start))
    as (hi' & _ & [_ Hd]).
  apply Hd.
Qed.

Lemma minute_rate_bound_witness :
  guard_clock 0 [(0, 0); (1, 1); (2, 2); (61, 61)] /\
  accepted [(0, 0); (1, 1); (2, 2); (61, 61)] (init 2 10) = [0; 1; 61] /\
  Z.le (Z.of_nat (count_in_span 1 60
                    (accepted [(0, 0); (1, 1); (2, 2); (61, 61)] (init 2 10))))
       (Z.max 0 2).
Proof.
  assert (H : guard_clock 0 [(0, 0); (1, 1); (2, 2); (61, 61)])
    by (simpl; repeat split; unfold Qle; simpl; lia).
  split; [exact H|]. split; [reflexivity|].
  exact (minute_rate_bound 2 10 [(0, 0); (1, 1); (2, 2); (61, 61)] 0 1 H).
Defined.

Lemma daily_rate_bound_witness :
  guard_clock 0 [(0, 0); (100, 100); (200, 200); (86401, 86401)] /\
  accepted [(0, 0); (100, 100); (200, 200); (86401, 86401)] (init 5 2)
  = [0; 100; 86401] /\
  Z.le (Z.of_nat (count_in_span 100 86400
                    (accepted [(0, 0); (100, 100); (200, 200); (86401, 86401)]
                       (init 5 2))))
       (Z.max 0 2).
Proof.
  assert (H : guard_clock 0 [(0, 0); (100, 100); (200, 200); (86401, 86401)])
    by (simpl; repeat split; unfold Qle; simpl; lia).
  split; [exact H|]. split; [reflexivity|].
  exact (daily_rate_bound 5 2
           [(0, 0); (100, 100); (200, 200); (86401, 86401)] 0 100 H).
Defined.

(** ** The size of the windows *)

Lemma serve_within_limits :
  forall (reqs : list (Q * Q)) (self : t),
    (Z.of_nat (List.length (requests_minute self))
     <= Z.max 0 (rpm_limit self))%Z ->
    (Z.of_nat (List.length (requests_day self))
     <= Z.max 0 (daily_limit self))%Z ->
    (Z.of_nat (List.length (requests_minute (serve reqs self)))
     <= Z.max 0 (rpm_limit self))%Z /\
    (Z.of_nat (List.length (requests_day (serve reqs self)))
     <= Z.max 0 (daily_limit self))%Z.
Proof.
  induction reqs as [|[c tr] rest IH]; intros self Hm Hd; [now split|].
  simpl serve.
  destruct (cycle_limits c tr self) as [Hrpm Hdaily].
  rewrite <- Hrpm, <- Hdaily.
  pose proof (clean_length c 60 (requests_minute self)) as Hcm.
  pose proof (clean_length c 86400 (requests_day self)) as Hcd.
  apply IH; rewrite ?Hrpm, ?Hdaily;
    destruct (cycle_cases c tr self) as [[_ Hst] | (_ & Hst & Hfree)];
    rewrite Hst, check_fst; simpl;
    try (destruct (check_not_limited c self Hfree) as [Hlm Hld]);
    unfold append; rewrite ?length_app; simpl; lia.
Qed.

(** X3. Whatever series of guarded requests a new limiter serves, with
    any clock readings, the minute window never holds more entries than
    the per-minute limit and the day window never more than the daily
    limit (none when a limit is zero or negative). *)
Theorem windows_within_limits (rpm daily : Z) (reqs : list (Q * Q)) :
  (Z.of_nat (List.length (requests_minute (serve reqs (init rpm daily))))
   <= Z.max 0 rpm)%Z /\
  (Z.of_nat (List.length (requests_day (serve reqs (init rpm daily))))
   <= Z.max 0 daily)%Z.
Proof.
  apply (serve_within_limits reqs (init rpm daily)); simpl; lia.
Qed.

(** ** Waiting *)

Lemma clean_length_later (p q w : Q) (dq : deque) :
  p <= q ->
  (List.length (clean q w dq) <= List.length (clean p w dq))%nat.
Proof.
  intros Hpq. rewrite <- (clean_later p q w dq Hpq). apply clean_length.
Qed.

(** X4. Waiting never turns a free limiter into a limited one: when a
    check answers not limited, a check at any later reading, with no
    request recorded in between, answers not limited too. *)
Theorem free_stays_free (p q : Q) (self : t) :
  p <= q ->
  fst (snd (check p self)) = false ->
  snd (check q self) = (false, ""%string) /\
  snd (check q (fst (check p self))) = (false, ""%string).
Proof.
  intros Hpq Hfree.
  destruct (check_not_limited p self Hfree) as [Hm Hd].
  assert (H : snd (check q self) = (false, ""%string)).
  { pose proof (clean_length_later p q 60 (requests_minute self) Hpq).
    pose proof (clean_length_later p q 86400 (requests_day self) Hpq).
    apply check_snd_free; lia. }
  split; [exact H|]. now rewrite (check_later p q self Hpq).
Qed.

Lemma free_stays_free_witness :
  0 <= 100 /\
  fst (snd (check 0 (mk 2 10 [0] [0]))) = false /\
  snd (check 100 (mk 2 10 [0] [0])) = (false, ""%string).
Proof.
  assert (H : 0 <= 100) by (unfold Qle; simpl; lia).
  split; [exact H|]. split; [reflexivity|].
  exact (proj1 (free_stays_free 0 100 (mk 2 10 [0] [0]) H eq_refl)).
Defined.

(** ** Recovery *)

Lemma clean_all_old (now w hi : Q) (dq : deque) :
  bounded hi dq -> older now w hi = true -> clean now w dq = [].
Proof.
  intros Hb Hold. induction Hb as [|x dq Hx Hb IH]; simpl; [reflexivity|].
  now rewrite (older_earlier now w x hi Hx Hold).
Qed.

(** X5. A limiter with positive limits recovers by itself.  When no
    entry is later than reading [hi]: a check more than 60 seconds and
    [half_ulp 60] after [hi] empties the minute window and is not
    refused for the per-minute limit; a check more than 86400 seconds
    and [half_ulp 86400] after [hi] empties both windows and answers not
    limited. *)
Theorem limiter_recovers (hi now : Q) (self : t) :
  bounded hi (requests_minute self) ->
  bounded hi (requests_day self) ->
  (0 < rpm_limit self)%Z ->
  (0 < daily_limit self)%Z ->
  (60 + half_ulp 60 < now - hi ->
   requests_minute (fst (check now self)) = [] /\
   (snd (check now self) = (true, MSG_DAY) \/
    snd (check now self) = (false, ""%string))) /\
  (86400 + half_ulp 86400 < now - hi ->
   check now self
   = (mk (rpm_limit self) (daily_limit self) [] [], (false, ""%string))).
Proof.
  intros Hbm Hbd Hrpm Hdaily. split.
  - intros Hold. apply older_minute in Hold.
    pose proof (clean_all_old now 60 hi _ Hbm Hold) as Hm.
    rewrite check_fst. simpl. split; [exact Hm|].
    destruct (Z.leb_spec (daily_limit self)
                (Z.of_nat (List.length (clean now 86400 (requests_day self))))).
    + left. apply check_snd_day; [rewrite Hm; simpl; lia|assumption].
    + right. apply check_snd_free; [rewrite Hm; simpl; lia|assumption].
  - intros Hold. apply older_day in Hold.
    pose proof (clean_all_old now 60 hi _ Hbm (older_day_minute now hi Hold))
      as Hm.
    pose proof (clean_all_old now 86400 hi _ Hbd Hold) as Hd.
    rewrite (surjective_pairing (check now self)), check_fst, Hm, Hd.
    f_equal. apply check_snd_free; rewrite ?Hm, ?Hd; simpl; lia.
Qed.

Lemma limiter_recovers_witness :
  bounded 3 [1; 3] /\
  check 86500 (mk 2 2 [1; 3] [1; 3]) = (mk 2 2 [] [], (false, ""%string)).
Proof.
  assert (Hb : bounded 3 [1; 3])
    by (repeat constructor; unfold Qle; simpl; lia).
  split; [exact Hb|].
  apply (proj2 (limiter_recovers 3 86500 (mk 2 2 [1; 3] [1; 3])
                  Hb Hb eq_refl eq_refl)).
  reflexivity.
Defined.

(** ** Limits of zero or less *)

Lemma accepted_blocked :
  forall (reqs : list (Q * Q)) (self : t),
    (forall now s,
        rpm_limit s = rpm_limit self -> daily_limit s = daily_limit self ->
        fst (snd (check now s)) = true) ->
    accepted reqs self = [] /\
    requests_minute (serve reqs self) = fold_left
      (fun dq r => clean (fst r) 60 dq) reqs (requests_minute self) /\
    requests_day (serve reqs self) = fold_left
      (fun dq r => clean (fst r) 86400 dq) reqs (requests_day self).
Proof.
  induction reqs as [|[c tr] rest IH]; intros self Hblocked; [now repeat split|].
  rewrite accepted_cons. simpl serve. simpl fold_left.
  destruct (cycle_limits c tr self) as [Hrpm Hdaily].
  destruct (cycle_cases c tr self) as [[Hlim Hst] | (_ & _ & Hfree)].
  - rewrite Hlim.
    destruct (IH (fst (cycle c tr self))) as (Ha & Hm & Hd).
    + intros now s H1 H2. apply Hblocked; congruence.
    + rewrite Ha, Hm, Hd, Hst, check_fst. simpl. now repeat split.
  - rewrite (Hblocked c self eq_refl eq_refl) in Hfree. discriminate.
Qed.

(** X6. A limit of zero or less blocks everything.  With a per-minute
    limit of zero or less every check answers limited with the
    per-minute message; with a daily limit of zero or less every check
    answers limited; and in both cases no guarded request is ever
    accepted or recorded. *)
Theorem nonpositive_limit_blocks (self : t) :
  (rpm_limit self <= 0)%Z \/ (daily_limit self <= 0)%Z ->
  (forall now : Q, fst (snd (check now self)) = true) /\
  ((rpm_limit self <= 0)%Z ->
   forall now : Q, snd (check now self) = (true, MSG_MINUTE)) /\
  (forall reqs : list (Q * Q),
      accepted reqs self = [] /\
      (List.length (requests_minute (serve reqs self))
       <= List.length (requests_minute self))%nat /\
      (List.length (requests_day (serve reqs self))
       <= List.length (requests_day self))%nat).
Proof.
  intros Hlim.
  assert (Hblocked : forall now s,
             rpm_limit s = rpm_limit self -> daily_limit s = daily_limit self ->
             fst (snd (check now s)) = true).
  { intros now s Hr Hd. unfold check. rewrite Hr, Hd.
    destruct (Z.leb_spec (rpm_limit self)
                (Z.of_nat (List.length (clean now 60 (requests_minute s)))));
      [reflexivity|].
    destruct (Z.leb_spec (daily_limit self)
                (Z.of_nat (List.length (clean now 86400 (requests_day s)))));
      [reflexivity|lia]. }
  split; [|split].
  - intros now. now apply Hblocked.
  - intros Hrpm now. apply check_snd_minute. lia.
  - intros reqs.
    destruct (accepted_blocked reqs self Hblocked) as (Ha & Hm & Hd).
    split; [exact Ha|]. rewrite Hm, Hd. clear.
    split.
    + generalize (requests_minute self).
      induction reqs as [|r rest IH]; intros dq; simpl; [lia|].
      specialize (IH (clean (fst r) 60 dq)).
      pose proof (clean_length (fst r) 60 dq). lia.
    + generalize (requests_day self).
      induction reqs as [|r rest IH]; intros dq; simpl; [lia|].
      specialize (IH (clean (fst r) 86400 dq)).
      pose proof (clean_length (fst r) 86400 dq). lia.
Qed.

Lemma nonpositive_limit_blocks_witness :
  ((rpm_limit (init 0 499) <= 0)%Z \/ (daily_limit (init 0 499) <= 0)%Z) /\
  accepted [(0, 1); (100, 101)] (init 0 499) = [].
Proof.
  assert (H : (rpm_limit (init 0 499) <= 0)%Z \/ (daily_limit (init 0 499) <= 0)%Z)
    by (left; simpl; lia).
  split; [exact H|].
  exact (proj1 (proj2 (proj2 (nonpositive_limit_blocks (init 0 499) H))
                  [(0, 1); (100, 101)])).
Defined.

(** ** The reply of the text-generation helper *)

(** X7. With candidates and a readable text the helper returns that
    text unchanged; and the helper's reply is the empty string in that
    case only, when the generated text itself is empty. *)
Theorem ask_gemini_empty_reply
  (candidate : Type) (generated : res (response candidate)) :
  (forall (r : response candidate) (s : string),
      generated = Ok r -> candidates r <> [] -> text r = Ok s ->
      ask_gemini generated = Ok s) /\
  (ask_gemini generated = Ok ""%string <->
   exists r : response candidate,
     generated = Ok r /\ candidates r <> [] /\ text r = Ok ""%string).
Proof.
  split.
  - intros r s -> Hc Ht. unfold ask_gemini. simpl.
    destruct (candidates r); [congruence|]. now rewrite Ht.
  - split.
    + unfold ask_gemini. destruct generated as [r|e|]; simpl;
        try discriminate.
      destruct (candidates r) as [|c cs] eqn:Hc; simpl; [discriminate|].
      destruct (text r) as [s|e|] eqn:Ht; simpl; try discriminate.
      intros H. injection H as ->. exists r.
      repeat split; [congruence|exact Ht].
    + intros (r & -> & Hc & Ht). unfold ask_gemini. simpl.
      destruct (candidates r); [congruence|]. now rewrite Ht.
Qed.

(** ** The rolls *)

Lemma sum_from (rolls : list Z) :
  forall acc : Z, fold_left Z.add rolls acc = (acc + sum rolls)%Z.
Proof.
  unfold sum. induction rolls as [|r rolls IH]; intros acc; simpl; [lia|].
  rewrite (IH (acc + r)%Z), (IH r). lia.
Qed.

Section RollFacts.

Variable rng : Type.
Variable randint : Z -> Z -> rng -> Z * rng.

(** [random.randint(a, b)] returns an integer from [a] to [b], both
    included, when the range is not empty. *)
Hypothesis randint_range :
  forall (a b : Z) (g : rng),
    (a <= b)%Z -> (a <= fst (randint a b g) <= b)%Z.

Lemma roll_n_bounds (num_sides : Z) :
  (1 <= num_sides)%Z ->
  forall (n : nat) (g : rng),
    List.length (fst (roll_n rng randint n num_sides g)) = n /\
    Forall (fun r => (1 <= r <= num_sides)%Z)
           (fst (roll_n rng randint n num_sides g)) /\
    (Z.of_nat n <= sum (fst (roll_n rng randint n num_sides g))
     <= Z.of_nat n * num_sides)%Z.
Proof.
  intros Hsides. induction n as [|n IH]; intros g.
  - simpl. repeat split; [constructor|unfold sum; simpl; lia..].
  - cbn [roll_n]. pose proof (randint_range 1 num_sides g Hsides) as Hr.
    destruct (randint 1 num_sides g) as [r g1]. cbn [fst] in Hr.
    destruct (IH g1) as (Hlen & Hall & Hsum).
    destruct (roll_n rng randint n num_sides g1) as [rs g2]. cbn [fst] in *.
    rewrite Nat2Z.inj_succ.
    assert (Hs : sum (r :: rs) = (r + sum rs)%Z).
    { unfold sum. simpl. now rewrite sum_from. }
    rewrite Hs. repeat split.
    + simpl. now rewrite Hlen.
    + now constructor.
    + lia.
    + nia.
Qed.

(** X8. The rolls of the diceroll command.  With at least one side
    there are as many rolls as dice (none for a count of zero or less),
    each roll is from 1 to the number of sides, and the total is from
    the number of dice to the number of dice times the number of sides;
    for the counts the validation lets through, the total is from 1 to
    100000. *)
Theorem dice_rolls_bounds (num_dice num_sides : Z) (g : rng) :
  (1 <= num_sides)%Z ->
  Z.of_nat (List.length (fst (roll_dice rng randint num_dice num_sides g)))
  = Z.max 0 num_dice /\
  Forall (fun r => (1 <= r <= num_sides)%Z)
         (fst (roll_dice rng randint num_dice num_sides g)) /\
  (Z.max 0 num_dice
   <= sum (fst (roll_dice rng randint num_dice num_sides g))
   <= Z.max 0 num_dice * num_sides)%Z /\
  (in_range num_dice num_sides ->
   (1 <= sum (fst (roll_dice rng randint num_dice num_sides g)) <= 100000)%Z).
Proof.
  intros Hsides. unfold roll_dice.
  destruct (roll_n_bounds num_sides Hsides (Z.to_nat num_dice) g)
    as (Hlen & Hall & Hsum).
  assert (Hn : Z.of_nat (Z.to_nat num_dice) = Z.max 0 num_dice) by lia.
  rewrite Hn in Hsum.
  repeat split; try assumption; try lia.
  - destruct H as [[H1 H2] [H3 H4]]. lia.
  - destruct H as [[H1 H2] [H3 H4]]. nia.
Qed.

End RollFacts.

(** A generator that gives the two ends of the range in turn. *)
Lemma ends_in_range :
  forall (a b : Z) (g : bool),
    (a <= b)%Z ->
    (a <= fst ((fun a b (g : bool) => (if g then a else b, negb g)) a b g)
     <= b)%Z.
Proof. intros a b [|] H; simpl; lia. Defined.

Lemma dice_rolls_bounds_witness :
  (1 <= 6)%Z /\
  fst (roll_dice bool (fun a b (g : bool) => (if g then a else b, negb g))
         3 6 true) = [1; 6; 1]%Z /\
  (1 <= sum (fst (roll_dice bool
                    (fun a b (g : bool) => (if g then a else b, negb g))
                    3 6 true)) <= 100000)%Z.
Proof.
  assert (H : (1 <= 6)%Z) by lia.
  split; [exact H|]. split; [reflexivity|].
  apply (dice_rolls_bounds bool
           (fun a b (g : bool) => (if g then a else b, negb g))
           ends_in_range 3 6 true H).
  unfold in_range. lia.
Defined.

(** ** More on the dice notation *)

Lemma guarded_roll_cycle (n m : Z) (c tr : Q) (limiter : t) :
  fst (guarded_roll n m c tr limiter) = fst (cycle c tr limiter) /\
  rolled (snd (guarded_roll n m c tr limiter))
  = negb (fst (snd (cycle c tr limiter))).
Proof.
  unfold guarded_roll, cycle. destruct (check c limiter) as [l1 r].
  destruct (fst r) eqn:Hr; simpl; rewrite ?Hr; split; reflexivity.
Qed.

(** The two ways the handler can go: it leaves the limiter alone and
    does not roll (a refusal, or an error of [int]), or it is the guard
    and the roll. *)
Lemma diceroll_cases
  (unicode_decimal : N -> option N) (str_lower : str -> str)
  (int_max_str_digits : N) (dice : str) (c tr : Q) (limiter : t) :
  (exists events,
      diceroll unicode_decimal str_lower int_max_str_digits dice c tr limiter
      = (limiter, events) /\ rolled events = false) \/
  (exists n m,
      diceroll unicode_decimal str_lower int_max_str_digits dice c tr limiter
      = guarded_roll n m c tr limiter).
Proof.
  unfold diceroll.
  destruct (fullmatch_dice unicode_decimal (str_lower dice)) as [[g1 g2]|].
  - destruct (num_dice <- int unicode_decimal int_max_str_digits g1 ;;
              num_sides <- int unicode_decimal int_max_str_digits g2 ;;
              Ok (num_dice, num_sides)) as [[n m]|e|].
    + destruct (negb _).
      * left. now exists [Respond MSG_RANGE].
      * right. now exists n, m.
    + left. now exists [Raised e].
    + left. now exists [].
  - left. now exists [Respond MSG_FORMAT].
Qed.

Section DiceMore.

Variable unicode_decimal : N -> option N.
Variable str_lower : str -> str.
Variable int_max_str_digits : N.

Hypothesis decimal_ascii :
  forall c : N, (c < 128)%N -> unicode_decimal c = ascii_decimal c.

Hypothesis lower_plain :
  forall s : str, plain unicode_decimal s -> str_lower s = map ascii_lower s.

Lemma zeros_digits (k : nat) :
  Forall (is_digit unicode_decimal) (repeat 48%N k).
Proof.
  induction k as [|k IH]; simpl; constructor; [|exact IH].
  unfold is_digit. now rewrite decimal_ascii.
Qed.

Lemma decimal_value_zeros (k : nat) (g : str) :
  decimal_value unicode_decimal (repeat 48%N k ++ g)
  = decimal_value unicode_decimal g.
Proof.
  unfold decimal_value. rewrite fold_left_app. f_equal.
  induction k as [|k IH]; simpl; [reflexivity|].
  now rewrite decimal_ascii.
Qed.

Lemma fits_shorter (k : nat) (g : str) :
  fits int_max_str_digits (repeat 48%N k ++ g) -> fits int_max_str_digits g.
Proof.
  intros [H|H]; [now left|right].
  rewrite length_app in H. lia.
Qed.

(** X9. Zeros in front of either number change nothing, as long as the
    numbers with their zeros have no more digits than the limit of the
    runtime: the input with padded numbers is then handled exactly as
    the input without the padding (accepted with the same counts, or
    refused with the same message). *)
Theorem diceroll_zero_padding
  (k1 k2 : nat) (g1 g2 : str) (t_check t_record : Q) (limiter : t) :
  g1 <> [] -> g2 <> [] ->
  Forall (is_digit unicode_decimal) g1 ->
  Forall (is_digit unicode_decimal) g2 ->
  fits int_max_str_digits (repeat 48%N k1 ++ g1) ->
  fits int_max_str_digits (repeat 48%N k2 ++ g2) ->
  diceroll unicode_decimal str_lower int_max_str_digits
    (repeat 48%N k1 ++ g1 ++ [100%N] ++ repeat 48%N k2 ++ g2)
    t_check t_record limiter
  = diceroll unicode_decimal str_lower int_max_str_digits
      (g1 ++ [100%N] ++ g2) t_check t_record limiter.
Proof.
  intros Hn1 Hn2 H1 H2 F1 F2.
  assert (Hz1 : Forall (is_digit unicode_decimal) (repeat 48%N k1 ++ g1))
    by (apply Forall_app; split; [apply zeros_digits|exact H1]).
  assert (Hz2 : Forall (is_digit unicode_decimal) (repeat 48%N k2 ++ g2))
    by (apply Forall_app; split; [apply zeros_digits|exact H2]).
  assert (Hd : unicode_decimal 100 = None) by now rewrite decimal_ascii.
  unfold diceroll.
  replace (repeat 48%N k1 ++ g1 ++ [100%N] ++ repeat 48%N k2 ++ g2)
    with ((repeat 48%N k1 ++ g1) ++ [100%N] ++ (repeat 48%N k2 ++ g2))
    by now rewrite <- !app_assoc.
  rewrite !(lower_notation unicode_decimal str_lower decimal_ascii lower_plain)
    by auto.
  rewrite (fullmatch_dice_complete unicode_decimal Hd _
             (repeat 48%N k1 ++ g1) (repeat 48%N k2 ++ g2)).
  - rewrite (fullmatch_dice_complete unicode_decimal Hd _ g1 g2).
    + rewrite (int_fits unicode_decimal _ _ F1).
      rewrite (int_fits unicode_decimal _ _ F2).
      rewrite (int_fits unicode_decimal _ _ (fits_shorter k1 g1 F1)).
      rewrite (int_fits unicode_decimal _ _ (fits_shorter k2 g2 F2)).
      now rewrite !decimal_value_zeros.
    + unfold dice_notation. auto.
  - unfold dice_notation. repeat split; try assumption.
    + intros H. apply app_eq_nil in H. now destruct H.
    + intros H. apply app_eq_nil in H. now destruct H.
Qed.

End DiceMore.

Lemma diceroll_zero_padding_witness :
  fits 4300 (repeat 48%N 2 ++ [50%N]) /\
  fits 4300 (repeat 48%N 3 ++ [54%N]) /\
  diceroll ascii_decimal (map ascii_lower) 4300 (str_of_string "002d0006")
    1 2 (init 10 499)
  = diceroll ascii_decimal (map ascii_lower) 4300 (str_of_string "2d6")
      1 2 (init 10 499).
Proof.
  assert (F1 : fits 4300 (repeat 48%N 2 ++ [50%N]))
    by (right; intros H; discriminate H).
  assert (F2 : fits 4300 (repeat 48%N 3 ++ [54%N]))
    by (right; intros H; discriminate H).
  split; [exact F1|]. split; [exact F2|].
  apply (diceroll_zero_padding ascii_decimal (map ascii_lower) 4300
           ascii_tables_decimal ascii_tables_lower
           2 3 [50%N] [54%N] 1 2 (init 10 499));
    try discriminate; try assumption; repeat constructor; discriminate.
Defined.

(** Past the limit the padding does change the outcome: under the limit
    of 4300 digits, "2d6" goes on to the guard and the roll, and with
    4300 zeros in front [int] raises. *)
Example diceroll_padding_too_long :
  diceroll ascii_decimal (map ascii_lower) 4300 (str_of_string "2d6")
    1 2 (init 10 499)
  = (mk 10 499 [2] [2], [LimiterCheck; LimiterRecord; Roll 2 6]) /\
  diceroll ascii_decimal (map ascii_lower) 4300
    (repeat 48%N 4300 ++ str_of_string "2d6") 1 2 (init 10 499)
  = (init 10 499, [Raised (ValueError (MSG_DIGITS 4300 4301))]).
Proof. split; vm_compute; reflexivity. Qed.

(** ** Series of commands behind the guard *)

(** One guarded request keeps both windows on track. *)
Lemma cycle_tracks (c tr hi : Q) (l : list Q) (self : t) :
  hi <= c -> c <= tr ->
  tracks 60 (rpm_limit self) hi l (requests_minute self) ->
  tracks 86400 (daily_limit self) hi l (requests_day self) ->
  tracks 60 (rpm_limit self) c
    (if fst (snd (cycle c tr self)) then l else l ++ [tr])
    (requests_minute (fst (cycle c tr self))) /\
  tracks 86400 (daily_limit self) c
    (if fst (snd (cycle c tr self)) then l else l ++ [tr])
    (requests_day (fst (cycle c tr self))).
Proof.
  intros Hhi Hct Hm Hd.
  pose proof (tracks_clean 60 _ hi c l _ Hhi Hm) as Hm1.
  pose proof (tracks_clean 86400 _ hi c l _ Hhi Hd) as Hd1.
  destruct (cycle_cases c tr self) as [[Hlim Hst] | (Hlim & Hst & Hfree)];
    rewrite Hlim, Hst, check_fst; simpl.
  - now split.
  - destruct (check_not_limited c self Hfree) as [Hlm Hld].
    split; apply tracks_append;
      auto using representable_60, representable_86400.
Qed.

(** A window on track stays on track while only the clock moves on. *)
Lemma tracks_later (w : Q) (limit : Z) (hi c : Q) (l : list Q) (dq : deque) :
  hi <= c -> tracks w limit hi l dq -> tracks w limit c l dq.
Proof.
  intros Hle [Hb Hbound]. split; [|exact Hbound].
  now apply (behind_later w hi c).
Qed.

Section GuardedSeries.

Variable A : Type.
Variable handler : A -> Q -> Q -> t -> t * bool.

(** The handler leaves the limiter alone and does not go on, or it is
    one guarded request and goes on when the request is recorded. *)
Hypothesis handler_guarded :
  forall (a : A) (c tr : Q) (self : t),
    handler a c tr self = (self, false) \/
    handler a c tr self
    = (fst (cycle c tr self), negb (fst (snd (cycle c tr self)))).

Lemma generated_at_tracks :
  forall (invocations : list (A * (Q * Q))) (self : t) (l : list Q) (hi : Q),
    guard_clock hi (map snd invocations) ->
    tracks 60 (rpm_limit self) hi l (requests_minute self) ->
    tracks 86400 (daily_limit self) hi l (requests_day self) ->
    (forall lo,
        (Z.of_nat (count_in_span lo 60
                     (l ++ generated_at handler invocations self))
         <= Z.max 0 (rpm_limit self))%Z) /\
    (forall lo,
        (Z.of_nat (count_in_span lo 86400
                     (l ++ generated_at handler invocations self))
         <= Z.max 0 (daily_limit self))%Z).
Proof.
  induction invocations as [|[a [c tr]] rest IH];
    intros self l hi Hclock Hm Hd.
  - simpl. rewrite app_nil_r. split; [apply Hm|apply Hd].
  - simpl in Hclock. destruct Hclock as (Hhi & Hct & Hrest).
    cbn [generated_at].
    destruct (handler_guarded a c tr self) as [Heq | Heq]; rewrite Heq.
    + apply (IH self l c Hrest).
      * apply (tracks_later 60 _ hi c l _ Hhi Hm).
      * apply (tracks_later 86400 _ hi c l _ Hhi Hd).
    + destruct (cycle_limits c tr self) as [Hrpm Hdaily].
      destruct (cycle_tracks c tr hi l self Hhi Hct Hm Hd) as [Hm' Hd'].
      rewrite <- Hrpm in Hm'. rewrite <- Hdaily in Hd'.
      destruct (fst (snd (cycle c tr self))); simpl negb; cbn iota.
      * rewrite <- Hrpm, <- Hdaily. now apply (IH _ l c Hrest).
      * rewrite <- Hrpm, <- Hdaily.
        replace (l ++ tr :: generated_at handler rest (fst (cycle c tr self)))
          with ((l ++ [tr]) ++ generated_at handler rest (fst (cycle c tr self)))
          by now rewrite <- app_assoc.
        now apply (IH _ (l ++ [tr]) c Hrest).
Qed.

End GuardedSeries.

(** ** The rate of the diceroll command *)

Lemma rolls_at_generated
  (unicode_decimal : N -> option N) (str_lower : str -> str)
  (int_max_str_digits : N) :
  forall (invocations : list (str * (Q * Q))) (self : t),
    rolls_at unicode_decimal str_lower int_max_str_digits invocations self
    = generated_at
        (fun dice c tr l =>
           (fst (diceroll unicode_decimal str_lower int_max_str_digits
                   dice c tr l),
            rolled (snd (diceroll unicode_decimal str_lower int_max_str_digits
                           dice c tr l))))
        invocations self.
Proof.
  induction invocations as [|[dice [c tr]] rest IH]; intros self;
    [reflexivity|].
  cbn [rolls_at generated_at].
  destruct (diceroll unicode_decimal str_lower int_max_str_digits
              dice c tr self) as [l1 evs].
  cbn [fst snd]. now rewrite !IH.
Qed.

Lemma diceroll_guarded
  (unicode_decimal : N -> option N) (str_lower : str -> str)
  (int_max_str_digits : N) (dice : str) (c tr : Q) (self : t) :
  (fst (diceroll unicode_decimal str_lower int_max_str_digits dice c tr self),
   rolled (snd (diceroll unicode_decimal str_lower int_max_str_digits
                  dice c tr self)))
  = (self, false) \/
  (fst (diceroll unicode_decimal str_lower int_max_str_digits dice c tr self),
   rolled (snd (diceroll unicode_decimal str_lower int_max_str_digits
                  dice c tr self)))
  = (fst (cycle c tr self), negb (fst (snd (cycle c tr self)))).
Proof.
  destruct (diceroll_cases unicode_decimal str_lower int_max_str_digits
              dice c tr self)
    as [(events & Heq & Hnone) | (n & m & Heq)]; rewrite Heq.
  - left. simpl. now rewrite Hnone.
  - right. destruct (guarded_roll_cycle n m c tr self) as [H1 H2].
    now rewrite H1, H2.
Qed.

(** X10. The rate of the diceroll command.  Whatever the inputs of a
    series of diceroll commands on a new limiter, under a clock that
    does not go back, no span of 60 seconds holds more commands that go
    on to roll than the per-minute limit, and no span of 86400 seconds
    more than the daily limit; refused inputs, and inputs that make
    [int] raise, count for nothing. *)
Theorem diceroll_rate_bound
  (unicode_decimal : N -> option N) (str_lower : str -> str)
  (int_max_str_digits : N)
  (rpm daily : Z) (invocations : list (str * (Q * Q))) (start lo : Q) :
  guard_clock start (map snd invocations) ->
  (Z.of_nat (count_in_span lo 60
               (rolls_at unicode_decimal str_lower int_max_str_digits
                  invocations (init rpm daily)))
   <= Z.max 0 rpm)%Z /\
  (Z.of_nat (count_in_span lo 86400
               (rolls_at unicode_decimal str_lower int_max_str_digits
                  invocations (init rpm daily)))
   <= Z.max 0 daily)%Z.
Proof.
  intros Hclock.
  rewrite rolls_at_generated.
  destruct (generated_at_tracks str _
              (diceroll_guarded unicode_decimal str_lower int_max_str_digits)
              invocations (init rpm daily) [] start Hclock
              (tracks_new 60 rpm start) (tracks_new 86400 daily start))
    as [Hm Hd].
  split; [apply Hm|apply Hd].
Qed.

Lemma diceroll_rate_bound_witness :
  guard_clock 0 (map snd [(str_of_string "2d6", (0, 0));
                          (str_of_string "abc", (1, 1));
                          (str_of_string "1d20", (2, 2));
                          (str_of_string "3d6", (3, 3))]) /\
  rolls_at ascii_decimal (map ascii_lower) 4300
    [(str_of_string "2d6", (0, 0)); (str_of_string "abc", (1, 1));
     (str_of_string "1d20", (2, 2)); (str_of_string "3d6", (3, 3))]
    (init 2 10) = [0; 2] /\
  Z.le (Z.of_nat (count_in_span 0 60
                    (rolls_at ascii_decimal (map ascii_lower) 4300
                       [(str_of_string "2d6", (0, 0));
                        (str_of_string "abc", (1, 1));
                        (str_of_string "1d20", (2, 2));
                        (str_of_string "3d6", (3, 3))]
                       (init 2 10))))
       (Z.max 0 2).
Proof.
  assert (H : guard_clock 0 (map snd [(str_of_string "2d6", (0, 0));
                                      (str_of_string "abc", (1, 1));
                                      (str_of_string "1d20", (2, 2));
                                      (str_of_string "3d6", (3, 3))]))
    by (simpl; repeat split; unfold Qle; simpl; lia).
  split; [exact H|]. split; [reflexivity|].
  exact (proj1 (diceroll_rate_bound ascii_decimal (map ascii_lower) 4300 2 10
                  [(str_of_string "2d6", (0, 0)); (str_of_string "abc", (1, 1));
                   (str_of_string "1d20", (2, 2)); (str_of_string "3d6", (3, 3))]
                  0 0 H)).
Defined.

(** ** The rate of the text generation *)

Section HandlerFacts.

Variable candidate : Type.
Variable strip : string -> string.

Lemma then_reply_silent
  (generated : res (response candidate)) (k : string -> list effect) :
  (forall reply, generates (k reply) = false) ->
  generates (then_reply candidate generated k) = false.
Proof.
  intros Hk. unfold then_reply.
  destruct (ask_gemini generated); [apply Hk|reflexivity..].
Qed.

Lemma tarot_guarded (mention : string) (generated : res (response candidate))
  (c tr : Q) (self : t) :
  fst (tarot candidate strip mention generated c tr self) = fst (cycle c tr self) /\
  generates (snd (tarot candidate strip mention generated c tr self))
  = negb (fst (snd (cycle c tr self))).
Proof.
  unfold tarot, cycle. destruct (check c self) as [l1 r].
  destruct (fst r) eqn:Hr; simpl; rewrite ?Hr; split; reflexivity.
Qed.

Lemma callback_guarded (card_info question display_name : string)
  (generated : res (response candidate)) (c tr : Q) (self : t) :
  fst (callback candidate card_info question display_name generated c tr self)
  = fst (cycle c tr self) /\
  generates
    (snd (callback candidate card_info question display_name generated
            c tr self))
  = negb (fst (snd (cycle c tr self))).
Proof.
  unfold callback, cycle. destruct (check c self) as [l1 r].
  destruct (fst r) eqn:Hr; simpl; rewrite ?Hr; split; reflexivity.
Qed.

Lemma yesno_guarded (question display_name : string) (pick : bool)
  (generated : res (response candidate)) (c tr : Q) (self : t) :
  fst (yesno candidate question display_name pick generated c tr self)
  = fst (cycle c tr self) /\
  generates (snd (yesno candidate question display_name pick generated c tr self))
  = negb (fst (snd (cycle c tr self))).
Proof.
  unfold yesno, cycle. destruct (check c self) as [l1 r].
  destruct (fst r) eqn:Hr; simpl; rewrite ?Hr; split; reflexivity.
Qed.

Lemma handle_guarded
  (unicode_decimal : N -> option N) (str_lower : str -> str)
  (int_max_str_digits : N)
  (cmd : command candidate) (c tr : Q) (self : t) :
  handle strip unicode_decimal str_lower int_max_str_digits cmd c tr self
  = (self, false) \/
  handle strip unicode_decimal str_lower int_max_str_digits cmd c tr self
  = (fst (cycle c tr self), negb (fst (snd (cycle c tr self)))).
Proof.
  destruct cmd as [mention generated | card_info question display_name generated
                  | question display_name pick generated | dice]; simpl.
  - right. destruct (tarot_guarded mention generated c tr self) as [H1 H2].
    destruct (tarot candidate strip mention generated c tr self).
    simpl in *. now rewrite H1, H2.
  - right.
    destruct (callback_guarded card_info question display_name generated
                c tr self) as [H1 H2].
    destruct (callback candidate card_info question display_name generated
                c tr self).
    simpl in *. now rewrite H1, H2.
  - right.
    destruct (yesno_guarded question display_name pick generated c tr self)
      as [H1 H2].
    destruct (yesno candidate question display_name pick generated c tr self).
    simpl in *. now rewrite H1, H2.
  - destruct (diceroll_cases unicode_decimal str_lower int_max_str_digits
                dice c tr self)
      as [(events & Heq & Hnone) | (n & m & Heq)]; rewrite Heq.
    + left. now rewrite Hnone.
    + right. destruct (guarded_roll_cycle n m c tr self) as [H1 H2].
      destruct (guarded_roll n m c tr self). simpl in *. now rewrite H1, H2.
Qed.

(** X11. The rate of the text generation.  Whatever series of tarot,
    tarot question, yesno and diceroll commands is handled on a new
    limiter, under a clock that does not go back, no span of 60 seconds
    holds more commands that go on to the text generation than the
    per-minute limit, and no span of 86400 seconds more than the daily
    limit: with the limiter of the bot, 10 and 499. *)
Theorem text_generation_rate_bound
  (unicode_decimal : N -> option N) (str_lower : str -> str)
  (int_max_str_digits : N)
  (invocations : list (command candidate * (Q * Q))) (start lo : Q) :
  guard_clock start (map snd invocations) ->
  (forall rpm daily : Z,
      (Z.of_nat (count_in_span lo 60
                   (generated_at (handle strip unicode_decimal str_lower int_max_str_digits)
                      invocations (init rpm daily)))
       <= Z.max 0 rpm)%Z /\
      (Z.of_nat (count_in_span lo 86400
                   (generated_at (handle strip unicode_decimal str_lower int_max_str_digits)
                      invocations (init rpm daily)))
       <= Z.max 0 daily)%Z) /\
  (count_in_span lo 60
     (generated_at (handle strip unicode_decimal str_lower int_max_str_digits)
        invocations limiter) <= 10)%nat /\
  (count_in_span lo 86400
     (generated_at (handle strip unicode_decimal str_lower int_max_str_digits)
        invocations limiter) <= 499)%nat.
Proof.
  intros Hclock.
  assert (Hall : forall rpm daily : Z,
             (Z.of_nat (count_in_span lo 60
                          (generated_at (handle strip unicode_decimal str_lower int_max_str_digits)
                             invocations (init rpm daily)))
              <= Z.max 0 rpm)%Z /\
             (Z.of_nat (count_in_span lo 86400
                          (generated_at (handle strip unicode_decimal str_lower int_max_str_digits)
                             invocations (init rpm daily)))
              <= Z.max 0 daily)%Z).
  { intros rpm daily.
    destruct (generated_at_tracks (command candidate)
                (handle strip unicode_decimal str_lower int_max_str_digits)
                (handle_guarded unicode_decimal str_lower int_max_str_digits)
                invocations (init rpm daily) [] start Hclock
                (tracks_new 60 rpm start) (tracks_new 86400 daily start))
      as [Hm Hd].
    split; [apply Hm|apply Hd]. }
  split; [exact Hall|].
  destruct (Hall 10%Z 499%Z) as [Hm Hd]. unfold limiter. lia.
Qed.

End HandlerFacts.

Lemma text_generation_rate_bound_witness :
  guard_clock 0
    (map snd
       [(Tarot "@user" (Ok (mk_response [tt] (Ok "The Fool (Upright)"%string))),
         (0, 0));
        (@DiceRoll unit (str_of_string "abc"), (1, 1));
        (YesNo "?" "user" false (Raise (Exception "timed out")), (2, 3));
        (TarotQuestion "The Fool (Upright)" "?" "user"
           (Ok (mk_response [] (Ok ""%string))), (4, 4))]) /\
  generated_at (handle (fun s => s) ascii_decimal (map ascii_lower) 4300)
    [(Tarot "@user" (Ok (mk_response [tt] (Ok "The Fool (Upright)"%string))),
      (0, 0));
     (@DiceRoll unit (str_of_string "abc"), (1, 1));
     (YesNo "?" "user" false (Raise (Exception "timed out")), (2, 3));
     (TarotQuestion "The Fool (Upright)" "?" "user"
        (Ok (mk_response [] (Ok ""%string))), (4, 4))]
    limiter = [0; 3; 4] /\
  Nat.le
    (count_in_span 0 60
       (generated_at (handle (fun s => s) ascii_decimal (map ascii_lower) 4300)
          [(Tarot "@user"
              (Ok (mk_response [tt] (Ok "The Fool (Upright)"%string))),
            (0, 0));
           (@DiceRoll unit (str_of_string "abc"), (1, 1));
           (YesNo "?" "user" false (Raise (Exception "timed out")), (2, 3));
           (TarotQuestion "The Fool (Upright)" "?" "user"
              (Ok (mk_response [] (Ok ""%string))), (4, 4))]
          limiter))
    10.
Proof.
  assert (H : guard_clock 0
                (map snd
                   [(Tarot "@user"
                       (Ok (mk_response [tt] (Ok "The Fool (Upright)"%string))),
                     (0, 0));
                    (@DiceRoll unit (str_of_string "abc"), (1, 1));
                    (YesNo "?" "user" false (Raise (Exception "timed out")),
                     (2, 3));
                    (TarotQuestion "The Fool (Upright)" "?" "user"
                       (Ok (mk_response [] (Ok ""%string))), (4, 4))]))
    by (simpl; repeat split; unfold Qle; simpl; lia).
  split; [exact H|]. split; [reflexivity|].
  exact (proj1 (proj2 (text_generation_rate_bound unit (fun s => s)
                         ascii_decimal (map ascii_lower) 4300 _ 0 0 H))).
Defined.

(** ** The answer of the yesno command *)


(** ** The limiter against the log of recorded requests *)

Lemma filter_all (f : Q -> bool) (l : list Q) :
  Forall (fun x => f x = true) l -> filter f l = l.
Proof.
  induction 1 as [|x l Hx Hl IH]; simpl; [reflexivity|].
  now rewrite Hx, IH.
Qed.

Lemma filter_none (f : Q -> bool) (l : list Q) :
  Forall (fun x => f x = false) l -> filter f l = [].
Proof.
  induction 1 as [|x l Hx Hl IH]; simpl; [reflexivity|].
  now rewrite Hx, IH.
Qed.

(** On an ascending window the loop keeps exactly the entries that are
    not older than the window. *)
Lemma clean_ascending_filter (now w : Q) (dq : deque) :
  ascending dq ->
  clean now w dq = filter (fun x => negb (older now w x)) dq.
Proof.
  unfold ascending. induction 1 as [|x tl Hs IH Hall]; simpl; [reflexivity|].
  destruct (older now w x) eqn:Hx; simpl; [exact IH|].
  f_equal. symmetry. apply filter_all.
  eapply Forall_impl; [|exact Hall].
  intros y Hxy. simpl in Hxy.
  apply negb_true_iff. destruct (older now w y) eqn:Hy; [|reflexivity].
  rewrite (older_earlier now w x y Hxy Hy) in Hx. discriminate.
Qed.

Lemma behind_within (w hi now : Q) (l : list Q) (dq : deque) :
  hi <= now -> behind w hi l dq -> within now w l = within now w dq.
Proof.
  intros Hle (removed & -> & Hold). unfold within.
  rewrite filter_app, filter_none; [reflexivity|].
  eapply Forall_impl; [|exact (old_later w hi now removed Hle Hold)].
  intros x Hx. simpl in Hx.
  now apply negb_false_iff, older_true.
Qed.

Lemma cycle_well_formed (lo c tr : Q) (self : t) :
  lo <= c -> c <= tr -> well_formed lo self ->
  well_formed tr (fst (cycle c tr self)).
Proof.
  intros Hlo Hct Hwf.
  pose proof (step_well_formed lo (OpCheck c) self Hlo Hwf) as Hc.
  simpl in Hc.
  destruct (cycle_cases c tr self) as [[_ Hst] | (_ & Hst & _)]; rewrite Hst.
  - destruct Hc as (Hm & Hbm & Hd & Hbd).
    repeat split; try assumption; now apply (bounded_later c tr).
  - exact (step_well_formed c (OpRecord tr) _ Hct Hc).
Qed.

(** Along a series of guarded requests under a clock that does not go
    back, the windows stay ascending and stay what is left of the log of
    recorded timestamps. *)
Lemma serve_behind :
  forall (reqs : list (Q * Q)) (self : t) (l : list Q) (lo now : Q),
    clock_until lo reqs now ->
    well_formed lo self ->
    behind 60 lo l (requests_minute self) ->
    behind 86400 lo l (requests_day self) ->
    well_formed now (serve reqs self) /\
    behind 60 now (l ++ accepted reqs self) (requests_minute (serve reqs self)) /\
    behind 86400 now (l ++ accepted reqs self) (requests_day (serve reqs self)).
Proof.
  induction reqs as [|[c tr] rest IH]; intros self l lo now Hclock Hwf Hm Hd.
  - simpl in *. rewrite app_nil_r.
    destruct Hwf as (H1 & H2 & H3 & H4).
    repeat split; try assumption;
      try (now apply (bounded_later lo now));
      [now apply (behind_later 60 lo now)|now apply (behind_later 86400 lo now)].
  - simpl in Hclock. destruct Hclock as (Hlo & Hct & Hrest).
    pose proof (cycle_well_formed lo c tr self Hlo Hct Hwf) as Hwf'.
    pose proof (behind_clean 60 lo c l _ Hlo Hm) as Hm1.
    pose proof (behind_clean 86400 lo c l _ Hlo Hd) as Hd1.
    rewrite accepted_cons. simpl serve.
    destruct (cycle_cases c tr self) as [[Hlim Hst] | (Hlim & Hst & _)];
      rewrite Hlim.
    + apply (IH _ l tr now Hrest Hwf').
      * rewrite Hst, check_fst. simpl. now apply (behind_later 60 c tr).
      * rewrite Hst, check_fst. simpl. now apply (behind_later 86400 c tr).
    + replace (l ++ tr :: accepted rest (fst (cycle c tr self)))
        with ((l ++ [tr]) ++ accepted rest (fst (cycle c tr self)))
        by now rewrite <- app_assoc.
      apply (IH _ (l ++ [tr]) tr now Hrest Hwf').
      * rewrite Hst, check_fst. simpl.
        apply behind_append. now apply (behind_later 60 c tr).
      * rewrite Hst, check_fst. simpl.
        apply behind_append. now apply (behind_later 86400 c tr).
Qed.

Lemma serve_limits :
  forall (reqs : list (Q * Q)) (self : t),
    rpm_limit (serve reqs self) = rpm_limit self /\
    daily_limit (serve reqs self) = daily_limit self.
Proof.
  induction reqs as [|[c tr] rest IH]; intros self; [now split|].
  simpl serve. destruct (IH (fst (cycle c tr self))) as [H1 H2].
  destruct (cycle_limits c tr self) as [H3 H4]. split; congruence.
Qed.

(** The test of the loop, by the exact age of the entry. *)
Lemma fresh_minute (now x : Q) :
  negb (older now 60 x) = Qle_bool (now - x) (60 + half_ulp 60).
Proof.
  destruct (older now 60 x) eqn:Hx; simpl; symmetry.
  - apply older_minute in Hx.
    destruct (Qle_bool (now - x) (60 + half_ulp 60)) eqn:Hb; [|reflexivity].
    apply Qle_bool_iff in Hb. lra.
  - apply Qle_bool_iff. apply Qnot_lt_le. intros C.
    apply older_minute in C. congruence.
Qed.

Lemma fresh_day (now x : Q) :
  negb (older now 86400 x) = Qle_bool (now - x) (86400 + half_ulp 86400).
Proof.
  destruct (older now 86400 x) eqn:Hx; simpl; symmetry.
  - apply older_day in Hx.
    destruct (Qle_bool (now - x) (86400 + half_ulp 86400)) eqn:Hb;
      [|reflexivity].
    apply Qle_bool_iff in Hb. lra.
  - apply Qle_bool_iff. apply Qnot_lt_le. intros C.
    apply older_day in C. congruence.
Qed.

(** X13. The limiter decides by the log.  After any series of guarded
    requests on a new limiter, under a clock that does not go back, a
    check answers limited with the per-minute message exactly when the
    recorded requests that the test of [check] does not call older than
    60 seconds are at least the per-minute limit; else limited with the
    per-day message exactly when the recorded requests it does not call
    older than 86400 seconds are at least the daily limit; else not
    limited.  The requests the test does not call older than the window
    are those whose age is at most the window and [half_ulp] of it. *)
Theorem check_decides_by_log
  (rpm daily : Z) (reqs : list (Q * Q)) (lo now : Q) :
  clock_until lo reqs now ->
  let log := accepted reqs (init rpm daily) in
  let result := snd (check now (serve reqs (init rpm daily))) in
  (((rpm <= Z.of_nat (within now 60 log))%Z ->
    result = (true, MSG_MINUTE)) /\
   ((Z.of_nat (within now 60 log) < rpm)%Z ->
    (daily <= Z.of_nat (within now 86400 log))%Z ->
    result = (true, MSG_DAY)) /\
   ((Z.of_nat (within now 60 log) < rpm)%Z ->
    (Z.of_nat (within now 86400 log) < daily)%Z ->
    result = (false, ""%string))) /\
  within now 60 log
  = List.length
      (filter (fun x => Qle_bool (now - x) (60 + half_ulp 60)) log) /\
  within now 86400 log
  = List.length
      (filter (fun x => Qle_bool (now - x) (86400 + half_ulp 86400)) log).
Proof.
  intros Hclock. cbv zeta.
  split;
    [|split; unfold within; f_equal; apply filter_ext; intros x;
      [apply fresh_minute|apply fresh_day]].
  destruct (serve_behind reqs (init rpm daily) [] lo now Hclock)
    as ((Ham & _ & Had & _) & Hm & Hd).
  { repeat split; constructor. }
  { exists []. split; [reflexivity|constructor]. }
  { exists []. split; [reflexivity|constructor]. }
  simpl in Hm, Hd.
  rewrite (behind_within 60 now now _ _ (Qle_refl now) Hm).
  rewrite (behind_within 86400 now now _ _ (Qle_refl now) Hd).
  unfold within.
  rewrite <- (clean_ascending_filter now 60 _ Ham).
  rewrite <- (clean_ascending_filter now 86400 _ Had).
  pose proof (serve_limits reqs (init rpm daily)) as Hlim. simpl in Hlim.
  destruct Hlim as [Hr Hdl].
  repeat split.
  - intros H. apply check_snd_minute. now rewrite Hr.
  - intros H1 H2. apply check_snd_day; [now rewrite Hr|now rewrite Hdl].
  - intros H1 H2. apply check_snd_free; [now rewrite Hr|now rewrite Hdl].
Qed.

Lemma check_decides_by_log_witness :
  clock_until 0 [(0, 0); (1, 1); (2, 2)] 30 /\
  accepted [(0, 0); (1, 1); (2, 2)] (init 2 10) = [0; 1] /\
  snd (check 30 (serve [(0, 0); (1, 1); (2, 2)] (init 2 10)))
  = (true, MSG_MINUTE).
Proof.
  assert (H : clock_until 0 [(0, 0); (1, 1); (2, 2)] 30)
    by (simpl; repeat split; unfold Qle; simpl; lia).
  split; [exact H|]. split; [reflexivity|].
  apply (proj1 (proj1 (check_decides_by_log 2 10 [(0, 0); (1, 1); (2, 2)]
                         0 30 H))).
  vm_compute. discriminate.
Defined.

(** One request recorded at the float 0.1 under a limit of one per
    minute: at the float 60.1 the log still counts it, and the check
    answers limited. *)
Example check_decides_by_log_rounding :
  accepted [(FLOAT_0_1, FLOAT_0_1)] (init 1 499) = [FLOAT_0_1] /\
  within FLOAT_60_1 60 [FLOAT_0_1] = 1%nat /\
  snd (check FLOAT_60_1 (serve [(FLOAT_0_1, FLOAT_0_1)] (init 1 499)))
  = (true, MSG_MINUTE).
Proof. repeat split; vm_compute; reflexivity. Qed.

(** ** What the diceroll command rolls *)

(** X14. The diceroll command never rolls outside its bounds: whatever
    the input, the limiter and the tables and the digit limit of the
    runtime, when the handler goes on to roll, the dice count is from 1
    to 100 and the number of sides from 2 to 1000, the guard has been
    passed and the request recorded. *)
Theorem diceroll_rolls_in_range
  (unicode_decimal : N -> option N) (str_lower : str -> str)
  (int_max_str_digits : N)
  (dice : str) (t_check t_record : Q) (self : t) (num_dice num_sides : Z) :
  In (Roll num_dice num_sides)
     (snd (diceroll unicode_decimal str_lower int_max_str_digits dice
             t_check t_record self)) ->
  in_range num_dice num_sides /\
  fst (snd (check t_check self)) = false /\
  fst (diceroll unicode_decimal str_lower int_max_str_digits dice
         t_check t_record self)
  = record_request t_record (fst (check t_check self)).
Proof.
  unfold diceroll.
  destruct (fullmatch_dice unicode_decimal (str_lower dice)) as [[g1 g2]|].
  - destruct (n <- int unicode_decimal int_max_str_digits g1 ;;
              m <- int unicode_decimal int_max_str_digits g2 ;;
              Ok (n, m)) as [[n m]|e|].
    + destruct (((1 <=? n) && (n <=? 100))
                && ((2 <=? m) && (m <=? 1000)))%Z eqn:Ht; simpl.
      * apply in_range_test in Ht.
        destruct (check t_check self) as [l1 r]. simpl.
        destruct (fst r); simpl.
        -- intros [H | [H | []]]; discriminate.
        -- intros [H | [H | [H | []]]]; try discriminate.
           injection H as <- <-. split; [exact Ht|split; reflexivity].
      * intros [H | []]. discriminate.
    + simpl. intros [H | []]. discriminate.
    + simpl. intros [].
  - simpl. intros [H | []]. discriminate.
Qed.

Lemma diceroll_rolls_in_range_witness :
  In (Roll 2 6)
     (snd (diceroll ascii_decimal (map ascii_lower) 4300 (str_of_string "2D6")
             1 2 (init 10 499))) /\
  in_range 2 6.
Proof.
  assert (H : In (Roll 2 6)
                 (snd (diceroll ascii_decimal (map ascii_lower) 4300
                         (str_of_string "2D6") 1 2 (init 10 499))))
    by (vm_compute; auto).
  split; [exact H|].
  exact (proj1 (diceroll_rolls_in_range ascii_decimal (map ascii_lower) 4300
                  (str_of_string "2D6") 1 2 (init 10 499) 2 6 H)).
Defined.
